(** * kubelet-meta-proxy: label enrichment, namespace cache, scrape handler

    A shallow embedding of
      - internal/metrics/metrics.go  (NamespaceMetrics, Handler,
        FetchAndProcessMetrics, fetchMetrics, EnrichMetricFamilies, hasLabel)
      - the namespace controller     (NamespaceLabelReconciler.Reconcile)

    Conventions of the embedding.
      - A Go [map] is a [gmap].  A [range] over a map visits every entry
        exactly once in an order the language leaves unspecified and the
        runtime randomises; [rangeMap] returns every order the loop may take
        and the functions that contain such a loop return the list of all
        their possible outcomes (the list monad).
      - [EnrichMetricFamilies] receives pointers ([map[string]*MetricFamily],
        [[]*Metric], [*NamespaceMetrics]) and assigns to [metric.Label]
        through them.  The objects reachable from its arguments form the
        [Store], which is passed in and returned, so that the state of the
        caller's objects after the call can be read off.  The families under
        different keys, and the samples inside them, are distinct objects and
        none is nil, as the text parser allocates them.
      - A Go [error] is its message; [nil] is [None].
      - The text encoder and parser of the Prometheus client libraries, the
        Kubernetes REST transport and the cluster client are not part of the
        repository: they are parameters of the sections below. *)

From stdpp Require Import gmap strings list list_monad fin_maps pretty.

Local Open Scope string_scope.
Local Open Scope list_scope.
Local Open Scope stdpp_scope.

(** ** Go runtime: errors and map iteration *)

Definition error := string.

(** [fmt.Errorf(prefix + ": %w", err)] *)
Definition Errorf (pre : string) (err : error) : error := pre +:+ err.

(** Every order in which [for k, v := range m] may yield the entries of [m]. *)
Definition rangeMap {V} (m : gmap string V) : list (list (string * V)) :=
  permutations (map_to_list m).

(** ** client_model/go (dto) *)

Record LabelPair := { Name : string; Value : string }.

Inductive MetricType := COUNTER | GAUGE | SUMMARY | UNTYPED | HISTOGRAM | GAUGE_HISTOGRAM.

(** A sample: its label pairs, its numeric payload (kept as the text of the
    number, the enrichment never reads it) and its optional timestamp. *)
Record Metric := {
  Label : list LabelPair;
  Sample : string;
  TimestampMs : option Z
}.

Record MetricFamily := {
  mfName : string;
  mfHelp : option string;
  mfType : MetricType;
  mfMetric : list Metric
}.

Global Instance LabelPair_eq_dec : EqDecision LabelPair.
Proof. solve_decision. Defined.
Global Instance MetricType_eq_dec : EqDecision MetricType.
Proof. solve_decision. Defined.
Global Instance Metric_eq_dec : EqDecision Metric.
Proof. solve_decision. Defined.
Global Instance MetricFamily_eq_dec : EqDecision MetricFamily.
Proof. solve_decision. Defined.

(** ** metrics.go *)

(** NamespaceMetrics stores namespace names and their labels. *)
Record NamespaceMetrics := {
  Namespaces : gmap string (gmap string string)
}.

Global Instance NamespaceMetrics_eq_dec : EqDecision NamespaceMetrics.
Proof. solve_decision. Defined.

Definition NewNamespaceMetrics : NamespaceMetrics := {| Namespaces := ∅ |}.

(** The objects [EnrichMetricFamilies] reaches through its two arguments. *)
Record Store := {
  families : gmap string MetricFamily;
  nm : NamespaceMetrics
}.

Global Instance Store_eq_dec : EqDecision Store.
Proof. solve_decision. Defined.

Fixpoint hasLabel (labels : list LabelPair) (name : string) : bool :=
  match labels with
  | [] => false
  | lbl :: rest => if decide (Name lbl = name) then true else hasLabel rest name
  end.

(** The first loop of the body: [nsValue] is the value of the first label
    named [namespace], and stays [""] when there is none. *)
Fixpoint nsValueOf (labels : list LabelPair) : string :=
  match labels with
  | [] => ""
  | lbl :: rest =>
      if decide (Name lbl = "namespace") then Value lbl else nsValueOf rest
  end.

(** [&dto.LabelPair{Name: proto.String(k), Value: proto.String(v)}] *)
Definition newLabel (kv : string * string) : LabelPair :=
  {| Name := kv.1; Value := kv.2 |}.

(** One iteration of [for k, v := range extraLabels]. *)
Definition appendExtra (labels : list LabelPair) (kv : string * string) : list LabelPair :=
  if hasLabel labels kv.1 then labels
  else labels ++ [ newLabel kv ].

Definition withLabel (metric : Metric) (labels : list LabelPair) : Metric :=
  {| Label := labels; Sample := Sample metric; TimestampMs := TimestampMs metric |}.

(** The body of [for _, metric := range mf.Metric]. *)
Definition enrichMetric (c : NamespaceMetrics) (metric : Metric) : list Metric :=
  let nsValue := nsValueOf (Label metric) in
  if decide (nsValue = "") then mret metric
  else match Namespaces c !! nsValue with
       | Some extraLabels =>
           order ← rangeMap extraLabels;
           mret (withLabel metric (foldl appendExtra (Label metric) order))
       | None => mret metric
       end.

Definition withMetric (mf : MetricFamily) (ms : list Metric) : MetricFamily :=
  {| mfName := mfName mf; mfHelp := mfHelp mf; mfType := mfType mf; mfMetric := ms |}.

(** The body of [for _, mf := range metricFamilies] (first loop). *)
Definition enrichFamily (c : NamespaceMetrics) (mf : MetricFamily) : list MetricFamily :=
  ms ← mapM (enrichMetric c) (mfMetric mf);
  mret (withMetric mf ms).

(** The first loop, taken in the order [order]; the family under key [k] is
    updated in place. *)
Fixpoint enrichLoop (c : NamespaceMetrics) (order : list (string * MetricFamily))
    (fams : gmap string MetricFamily) : list (gmap string MetricFamily) :=
  match order with
  | [] => mret fams
  | (k, mf) :: rest =>
      mf' ← enrichFamily c mf;
      enrichLoop c rest (<[k := mf']> fams)
  end.

Section Encoder.
(** [expfmt]'s text encoder on one family: the bytes it writes to the
    builder and the error it returns. *)
Variable Encode : MetricFamily → string * option error.
(** [%q] of [fmt]. *)
Variable Quote : string → string.

(** The second loop, taken in the order [order], writing to [sb]. *)
Fixpoint encodeLoop (order : list (string * MetricFamily)) (sb : string)
    : string * option error :=
  match order with
  | [] => (sb, None)
  | (_, mf) :: rest =>
      let '(out, err) := Encode mf in
      match err with
      | Some e =>
          ("", Some (Errorf ("failed to encode metric family " +:+ Quote (mfName mf) +:+ ": ") e))
      | None => encodeLoop rest (sb +:+ out)
      end
  end.

(** The encoding step on a model. *)
Definition encodeFamilies (fams : gmap string MetricFamily) : list (string * option error) :=
  order ← rangeMap fams;
  mret (encodeLoop order "").

(** EnrichMetricFamilies enriches metrics with extra labels. *)
Definition EnrichMetricFamilies (st : Store) : list (Store * (string * option error)) :=
  order ← rangeMap (families st);
  fams' ← enrichLoop (nm st) order (families st);
  res ← encodeFamilies fams';
  mret ({| families := fams'; nm := nm st |}, res).
End Encoder.

(** The blocks the encoder writes for the families of [order], one after the
    other. *)
Definition blocks (Encode : MetricFamily → string * option error)
    (order : list (string * MetricFamily)) : string :=
  foldr (λ kmf acc, (Encode kmf.2).1 +:+ acc) "" order.

Definition dquote : string := String (Ascii.ascii_of_nat 34) EmptyString.
Definition newline : string := String (Ascii.ascii_of_nat 10) EmptyString.

(** A line-per-sample encoder to run the functions on concrete inputs: one
    [name{l1="v1",...} value] line per sample, and an error on a family
    without samples. *)

Definition renderLabel (lbl : LabelPair) : string :=
  Name lbl +:+ "=" +:+ dquote +:+ Value lbl +:+ dquote.

Definition renderMetric (name : string) (metric : Metric) : string :=
  name +:+ "{" +:+ String.concat "," (renderLabel <$> Label metric) +:+ "} "
       +:+ Sample metric +:+ newline.

Definition lineEncoder (mf : MetricFamily) : string * option error :=
  match mfMetric mf with
  | [] => ("", Some "MetricFamily has no metrics")
  | ms => (String.concat "" (renderMetric (mfName mf) <$> ms), None)
  end.

Definition plainQuote (s : string) : string :=
  dquote +:+ s +:+ dquote.

(** ** net/http: the response writer *)

(** The header map the handler can still change, what has gone out on the
    wire as status line and headers (fixed by the first [WriteHeader] or
    [Write]), and the body bytes written. *)
Record ResponseWriter := {
  Header : gmap string string;
  Sent : option (Z * gmap string string);
  Body : string
}.

Definition newResponseWriter : ResponseWriter :=
  {| Header := ∅; Sent := None; Body := "" |}.

Definition StatusOK : Z := 200.
Definition StatusInternalServerError : Z := 500.

Definition HeaderSet (k v : string) (w : ResponseWriter) : ResponseWriter :=
  {| Header := <[k := v]> (Header w); Sent := Sent w; Body := Body w |}.

Definition HeaderDel (k : string) (w : ResponseWriter) : ResponseWriter :=
  {| Header := delete k (Header w); Sent := Sent w; Body := Body w |}.

Definition WriteHeader (code : Z) (w : ResponseWriter) : ResponseWriter :=
  match Sent w with
  | Some _ => w
  | None => {| Header := Header w; Sent := Some (code, Header w); Body := Body w |}
  end.

Definition Write (data : string) (w : ResponseWriter) : ResponseWriter :=
  let w := WriteHeader StatusOK w in
  {| Header := Header w; Sent := Sent w; Body := Body w +:+ data |}.

(** [http.Error] *)
Definition httpError (msg : string) (code : Z) (w : ResponseWriter) : ResponseWriter :=
  let w := HeaderDel "Content-Length" w in
  let w := HeaderSet "Content-Type" "text/plain; charset=utf-8" w in
  let w := HeaderSet "X-Content-Type-Options" "nosniff" w in
  let w := WriteHeader code w in
  Write (msg +:+ newline) w.

Record HttpRequest := { Method : string; URLPath : string }.

(** What the upstream answered: its status code and the outcome of
    [io.ReadAll(resp.Body)]. *)
Record HttpResponse := {
  StatusCode : Z;
  ReadAll : string * option error
}.

Record RestConfig := { Insecure : bool }.

(** ServerRunnableOpts is a struct that contains options for ServerRunnable. *)
Record ServerRunnableOpts := {
  RestConfigOf : RestConfig;
  KubeApiserver : string;
  NodeNameOrIP : string;
  NodePort : string;
  NodePath : string
}.

Section Pipeline.
Variable Encode : MetricFamily → string * option error.
Variable Quote : string → string.
(** [expfmt.TextParser.TextToMetricFamilies] *)
Variable TextToMetricFamilies : string → gmap string MetricFamily * option error.
(** The error of [rest.TransportFor], of [http.NewRequestWithContext] on a
    URL, and the answer of [httpClient.Do] on the transport made for a
    configuration with or without certificate verification. *)
Variable TransportFor : RestConfig → option error.
Variable NewRequest : string → option error.
Variable Do : RestConfig → bool → string → HttpResponse + error.

(** fetchDirectFromKubelet call to nodeIP:nodePort/nodePath.  The branch on
    [insecureSkipVerify] sets a field of the transport's TLS configuration
    and is the [skip] argument of [Do]; it is taken with a transport that
    has such a configuration, as the one made for a configuration whose
    [Insecure] is set, which is the flag [FetchAndProcessMetrics] passes. *)
Definition fetchMetrics (cfg : RestConfig) (otps : ServerRunnableOpts)
    (insecureSkipVerify : bool) : string * option error :=
  let nodeIP :=
    if decide (KubeApiserver otps ≠ "") then KubeApiserver otps else NodeNameOrIP otps in
  let url := "https://" +:+ nodeIP +:+ ":" +:+ NodePort otps +:+ NodePath otps in
  match TransportFor cfg with
  | Some err => ("", Some (Errorf "failed to create transport from rest.Config: " err))
  | None =>
      match NewRequest url with
      | Some err => ("", Some (Errorf "new request: " err))
      | None =>
          match Do cfg insecureSkipVerify url with
          | inr err => ("", Some (Errorf "do request: " err))
          | inl resp =>
              if decide (StatusCode resp ≠ StatusOK) then
                let b := (ReadAll resp).1 in
                ("", Some ("bad status code: " +:+ pretty (StatusCode resp)
                           +:+ ", body: " +:+ b))
              else ReadAll resp
          end
      end
  end.

(** FetchAndProcessMetrics fetches metrics from kubelet and returns enhanced metrics. *)
Definition FetchAndProcessMetrics (c : NamespaceMetrics) (opts : ServerRunnableOpts)
    : list (string * option error) :=
  let '(raw, err) := fetchMetrics (RestConfigOf opts) opts (Insecure (RestConfigOf opts)) in
  match err with
  | Some err => mret ("", Some (Errorf "fetch error: " err))
  | None =>
      let '(metricFamilies, err) := TextToMetricFamilies raw in
      match err with
      | Some err => mret ("", Some (Errorf "failed to parse metrics: " err))
      | None =>
          o ← EnrichMetricFamilies Encode Quote {| families := metricFamilies; nm := c |};
          let '(enriched, err) := o.2 in
          match err with
          | Some err => mret ("", Some (Errorf "failed to enrich metrics: " err))
          | None => mret (enriched, None)
          end
      end
  end.

(** Handler handles HTTP requests for Prometheus metrics. *)
Definition Handler (c : NamespaceMetrics) (opts : ServerRunnableOpts)
    (w : ResponseWriter) (r : HttpRequest) : list ResponseWriter :=
  out ← FetchAndProcessMetrics c opts;
  let '(data, err) := out in
  match err with
  | Some err =>
      mret (httpError ("failed to fetch/process metrics: " +:+ err)
                      StatusInternalServerError w)
  | None =>
      mret (Write data (HeaderSet "Content-Type" "text/plain; version=0.0.4" w))
  end.
End Pipeline.

(** ** The namespace controller *)

(** [corev1.LabelMetadataName] *)
Definition LabelMetadataName : string := "kubernetes.io/metadata.name".

Record Namespace := {
  nsName : string;
  Labels : gmap string string
}.

(** [ctrl.Request] for a cluster-scoped object, [ctrl.Result]. *)
Record Request := { NamespacedName : string }.
Record Result := { Requeue : bool; RequeueAfter : Z }.

Definition emptyResult : Result := {| Requeue := false; RequeueAfter := 0 |}.

(** The errors of the cluster client, told apart as [apierrors.IsNotFound]
    does. *)
Inductive apiError :=
  | NotFound (msg : string)
  | OtherError (msg : string).

(** [client.IgnoreNotFound] *)
Definition IgnoreNotFound (err : apiError) : option apiError :=
  match err with
  | NotFound _ => None
  | OtherError _ => Some err
  end.

(** The body of [for label := range labels]. *)
Definition stripName (labels : gmap string string) (kv : string * string) : gmap string string :=
  if decide (kv.1 = LabelMetadataName) then delete kv.1 labels else labels.

Section Controller.
(** [r.Get(ctx, name, ns)]: the namespace read, or the error. *)
Variable Get : string → Namespace + apiError.

(** Reconcile reads that state of the cluster for a Namespace object and add
    labels to NamespaceMetrics map. *)
Definition Reconcile (c : NamespaceMetrics) (req : Request)
    : list (NamespaceMetrics * (Result * option apiError)) :=
  match Get (NamespacedName req) with
  | inr err => mret (c, (emptyResult, IgnoreNotFound err))
  | inl ns =>
      let labels := Labels ns in
      if decide (size labels = 0%nat) then mret (c, (emptyResult, None))
      else
        order ← rangeMap labels;
        let labels := foldl stripName labels order in
        mret ({| Namespaces := <[nsName ns := labels]> (Namespaces c) |},
              (emptyResult, None))
  end.
End Controller.

(** ** Inputs to run the functions on *)

(** Scenario A of the specification. *)
Definition sampleA : Metric :=
  {| Label := [ {| Name := "namespace"; Value := "frontend-service1" |};
                {| Name := "pod"; Value := "x" |} ];
     Sample := "1.0"; TimestampMs := None |}.

Definition familyA : MetricFamily :=
  {| mfName := "container_cpu_usage"; mfHelp := None; mfType := UNTYPED;
     mfMetric := [sampleA] |}.

Definition cacheA : NamespaceMetrics :=
  {| Namespaces := {[ "frontend-service1" := {[ "team" := "frontend" ]} ]} |}.

Definition storeA : Store :=
  {| families := {[ "container_cpu_usage" := familyA ]}; nm := cacheA |}.

(** A sample whose [namespace] label is empty, and a cache with an entry
    under the empty name. *)
Definition sampleE : Metric :=
  {| Label := [ {| Name := "namespace"; Value := "" |} ];
     Sample := "1"; TimestampMs := None |}.

Definition familyE : MetricFamily :=
  {| mfName := "up"; mfHelp := None; mfType := GAUGE; mfMetric := [sampleE] |}.

Definition storeE : Store :=
  {| families := {[ "up" := familyE ]};
     nm := {| Namespaces := {[ "" := {[ "team" := "frontend" ]} ]} |} |}.

(** Scenario B: the sample has [team = legacy] already.  Scenario C: its
    namespace is not in the cache. *)
Definition sampleB : Metric :=
  {| Label := [ {| Name := "namespace"; Value := "frontend-service1" |};
                {| Name := "team"; Value := "legacy" |} ];
     Sample := "1.0"; TimestampMs := None |}.

Definition sampleC : Metric :=
  {| Label := [ {| Name := "namespace"; Value := "unknown-ns" |};
                {| Name := "pod"; Value := "x" |} ];
     Sample := "1.0"; TimestampMs := None |}.

Definition storeOf (m : Metric) : Store :=
  {| families := {[ "container_cpu_usage" :=
                      {| mfName := "container_cpu_usage"; mfHelp := None;
                         mfType := UNTYPED; mfMetric := [m] |} ]};
     nm := cacheA |}.

(** Scenario A after the call. *)
Definition sampleA' : Metric :=
  {| Label := [ {| Name := "namespace"; Value := "frontend-service1" |};
                {| Name := "pod"; Value := "x" |};
                {| Name := "team"; Value := "frontend" |} ];
     Sample := "1.0"; TimestampMs := None |}.

Definition storeA' : Store := storeOf sampleA'.

(** A family without samples, and a store with it and an empty cache. *)
Definition familyNone : MetricFamily :=
  {| mfName := "up"; mfHelp := None; mfType := GAUGE; mfMetric := [] |}.

Definition storeNone : Store :=
  {| families := {[ "up" := familyNone ]}; nm := NewNamespaceMetrics |}.

(** Two families without labels. *)
Definition familyOf (name : string) : MetricFamily :=
  {| mfName := name; mfHelp := None; mfType := GAUGE;
     mfMetric := [ {| Label := []; Sample := "1"; TimestampMs := None |} ] |}.

Definition famsAB : gmap string MetricFamily :=
  {[ "a" := familyOf "a"; "b" := familyOf "b" ]}.

Definition storeAB : Store := {| families := famsAB; nm := NewNamespaceMetrics |}.

(** A cluster in which namespace [ns1] is read without labels, one in which
    it is read with labels, one in which it is gone. *)
Definition bareNamespace (name : string) : Namespace + apiError :=
  inl {| nsName := name; Labels := ∅ |}.

Definition ns1Team : Namespace :=
  {| nsName := "ns1";
     Labels := {[ LabelMetadataName := "ns1"; "team" := "backend" ]} |}.

Definition teamNamespace (name : string) : Namespace + apiError :=
  inl ns1Team.

Definition goneNamespace (name : string) : Namespace + apiError :=
  inr (NotFound "namespaces not found").

Definition ns1Tier : Namespace :=
  {| nsName := "ns1"; Labels := {[ "tier" := "web" ]} |}.

Definition tierNamespace (name : string) : Namespace + apiError :=
  inl ns1Tier.

(** The cache after [ns1] was read with its team label from a new cache. *)
Definition cacheTeam : NamespaceMetrics :=
  {| Namespaces := {[ "ns1" := {[ "team" := "backend" ]} ]} |}.

(** A collection with one sample of namespace [ns1]. *)
Definition sampleNs1 : Metric :=
  {| Label := [ {| Name := "namespace"; Value := "ns1" |};
                {| Name := "pod"; Value := "x" |} ];
     Sample := "1.0"; TimestampMs := None |}.

Definition familyNs1 : MetricFamily :=
  {| mfName := "container_cpu_usage"; mfHelp := None; mfType := UNTYPED;
     mfMetric := [sampleNs1] |}.

Definition famsNs1 : gmap string MetricFamily :=
  {[ "container_cpu_usage" := familyNs1 ]}.

(** A label list with two labels named [namespace]. *)
Definition podLabel : LabelPair := {| Name := "pod"; Value := "x" |}.
Definition nsLabel (v : string) : LabelPair := {| Name := "namespace"; Value := v |}.

Definition cacheNs1 : NamespaceMetrics :=
  {| Namespaces := {[ "ns1" := {[ "team" := "frontend"; "tier" := "web" ]} ]} |}.

(** An upstream that answers with a given status, and a parser that yields
    Scenario A whatever it reads. *)
Definition optsA : ServerRunnableOpts :=
  {| RestConfigOf := {| Insecure := false |}; KubeApiserver := "";
     NodeNameOrIP := "node1"; NodePort := "10250"; NodePath := "/metrics" |}.

Definition upstream (code : Z) (cfg : RestConfig) (skip : bool) (url : string)
    : HttpResponse + error :=
  inl {| StatusCode := code; ReadAll := ("container_cpu_usage 1.0", None) |}.

Definition parserA (raw : string) : gmap string MetricFamily * option error :=
  (families storeA, None).

Definition noError {A} (a : A) : option error := None.

Definition scrape : HttpRequest := {| Method := "GET"; URLPath := "/metrics" |}.

(** ** What a pass does, as relations *)

(** The keys of the cached set that the sample does not carry yet. *)
Definition absent (labels : list LabelPair) (kv : string * string) : Prop :=
  hasLabel labels kv.1 = false.

Global Instance absent_dec labels kv : Decision (absent labels kv).
Proof. unfold absent. apply _. Defined.

Definition added (labels : list LabelPair) (order : list (string * string)) : list LabelPair :=
  newLabel <$> filter (absent labels) order.

(** The cached label set a sample with these labels is enriched from. *)
Definition cachedLabels (c : NamespaceMetrics) (labels : list LabelPair)
    : option (gmap string string) :=
  if decide (nsValueOf labels = "") then None else Namespaces c !! nsValueOf labels.

Definition enriched (c : NamespaceMetrics) (m m' : Metric) : Prop :=
  Sample m' = Sample m ∧ TimestampMs m' = TimestampMs m ∧
  match cachedLabels c (Label m) with
  | None => Label m' = Label m
  | Some extra =>
      ∃ order, order ≡ₚ map_to_list extra ∧ Label m' = Label m ++ added (Label m) order
  end.

Definition enrichedFamily (c : NamespaceMetrics) (mf mf' : MetricFamily) : Prop :=
  mfName mf' = mfName mf ∧ mfHelp mf' = mfHelp mf ∧ mfType mf' = mfType mf ∧
  Forall2 (enriched c) (mfMetric mf) (mfMetric mf').

Definition enrichedFamilies (c : NamespaceMetrics) (fams fams' : gmap string MetricFamily) : Prop :=
  ∀ k, option_Forall2 (enrichedFamily c) (fams !! k) (fams' !! k).

(** A pass always has an outcome: the one that takes every cached label set
    in the order of [map_to_list]. *)
Definition enrichMetricFirst (c : NamespaceMetrics) (m : Metric) : Metric :=
  match cachedLabels c (Label m) with
  | None => m
  | Some extra => withLabel m (Label m ++ added (Label m) (map_to_list extra))
  end.

Definition enrichFamilyFirst (c : NamespaceMetrics) (mf : MetricFamily) : MetricFamily :=
  withMetric mf (enrichMetricFirst c <$> mfMetric mf).

(** The headers [http.Error] leaves on a fresh writer. *)
Definition errorHeaders : gmap string string :=
  <["X-Content-Type-Options" := "nosniff"]>
    (<["Content-Type" := "text/plain; charset=utf-8"]> ∅).

(** ** The server runnable *)

(** The URL [fetchMetrics] formats from its options. *)
Definition requestURL (otps : ServerRunnableOpts) : string :=
  let nodeIP :=
    if decide (KubeApiserver otps ≠ "") then KubeApiserver otps else NodeNameOrIP otps in
  "https://" +:+ nodeIP +:+ ":" +:+ NodePort otps +:+ NodePath otps.

(** [http.Server] with a [ServeMux]: the address and, for every pattern
    registered, the options of the [Handler] closure registered under it. *)
Record HttpServer := {
  Addr : string;
  Mux : gmap string ServerRunnableOpts
}.

(** ServerRunnable is a struct that implements Runnable interface.  Its
    [namespaceMetrics] is the pointer to the cache, which the handlers
    receive when they run. *)
Record ServerRunnable := {
  httpServer : HttpServer;
  restConfig : RestConfig;
  kubeApiserver : string;
  nodeNameOrIP : string;
  nodePort : string;
  nodePath : string
}.

(** NewServerRunnable is a constructor that creates http.Server and handler. *)
Definition NewServerRunnable (cfg : RestConfig) (port : string)
    (apiserver node nport : string) : ServerRunnable :=
  let mux : gmap string ServerRunnableOpts := ∅ in
  let path :=
    if decide (apiserver ≠ "") then "/api/v1/nodes/" +:+ node +:+ "/proxy/" else "/" in
  let sharedHandlerMetrics :=
    {| KubeApiserver := apiserver; RestConfigOf := cfg; NodeNameOrIP := node;
       NodePort := nport; NodePath := path +:+ "metrics" |} in
  let sharedHandlerCadvisorMetrics :=
    {| KubeApiserver := apiserver; RestConfigOf := cfg; NodeNameOrIP := node;
       NodePort := nport; NodePath := path +:+ "metrics/cadvisor" |} in
  let mux := <["/metrics" := sharedHandlerMetrics]> mux in
  let mux := <["/metrics/cadvisor" := sharedHandlerCadvisorMetrics]> mux in
  {| restConfig := cfg;
     httpServer := {| Addr := ":" +:+ port; Mux := mux |};
     kubeApiserver := apiserver;
     nodeNameOrIP := node;
     nodePort := nport;
     nodePath := "" |}.

(** ** The controller options *)

(** [time.Duration] counts nanoseconds. *)
Definition Second : Z := 1000000000.
Definition Minute : Z := 60 * Second.

(** The exponential failure rate limiter, as the two delays it is made with. *)
Record RateLimiterConfig := { baseDelay : Z; maxDelay : Z }.

(** The fields of [controller.Options] that are set. *)
Record Options := {
  RateLimiter : RateLimiterConfig;
  CacheSyncTimeout : Z;
  MaxConcurrentReconciles : Z
}.

(** The package variables: whether [optionsInit] has run, and
    [defaultOptions] ([None] is the nil pointer). *)
Record Globals := {
  optionsInit : bool;
  defaultOptions : option Options
}.

Definition initialGlobals : Globals :=
  {| optionsInit := false; defaultOptions := None |}.

(** ControllerOptions is rate limiters and cache sync timeout for the
    controller.  The result is [None] where [*defaultOptions] would
    dereference nil. *)
Definition controllerOptions (maxConcurrency cacheSyncTimeout : Z) (g : Globals)
    : option Options * Globals :=
  let rateLimiters := {| baseDelay := 30 * Second; maxDelay := 5 * Minute |} in
  let g :=
    if optionsInit g then g
    else {| optionsInit := true;
            defaultOptions := Some {| RateLimiter := rateLimiters;
                                      CacheSyncTimeout := cacheSyncTimeout;
                                      MaxConcurrentReconciles := maxConcurrency |} |} in
  (defaultOptions g, g).

(** Calls of [controllerOptions] one after the other: what each returned. *)
Fixpoint controllerOptionsSeq (calls : list (Z * Z)) (g : Globals) : list (option Options) :=
  match calls with
  | [] => []
  | (maxConcurrency, cacheSyncTimeout) :: rest =>
      let '(o, g') := controllerOptions maxConcurrency cacheSyncTimeout g in
      o :: controllerOptionsSeq rest g'
  end.

(** ** The caches the controller can build *)

(** The cache starts as [NewNamespaceMetrics] and changes by reconciles
    only, each against the cluster as it is then. *)
Inductive reachable : NamespaceMetrics → Prop :=
  | reachable_new : reachable NewNamespaceMetrics
  | reachable_reconcile c Get req o :
      reachable c → o ∈ Reconcile Get c req → reachable o.1.

(** * Properties *)

(** ** The list monad *)

Lemma mapM_list_elem_of {A B} (f : A → list B) (l : list A) (k : list B) :
  k ∈ mapM f l ↔ Forall2 (λ x y, y ∈ f x) l k.
Proof.
  revert k. induction l as [|x l IH]; intros k; simpl.
  - rewrite list_elem_of_ret. split; [intros ->; constructor | by inversion 1].
  - rewrite list_elem_of_bind. split.
    + intros (y & Hk & Hy). apply list_elem_of_bind in Hk as (k' & Hk & Hk').
      apply list_elem_of_ret in Hk as ->. constructor; [done | by apply IH].
    + inversion 1 as [|? y ? k' Hy Hk']; subst. exists y. split; [|done].
      apply list_elem_of_bind. exists k'. split; [by apply list_elem_of_ret | by apply IH].
Qed.

Lemma rangeMap_elem_of {V} (m : gmap string V) order :
  order ∈ rangeMap m ↔ order ≡ₚ map_to_list m.
Proof. unfold rangeMap. rewrite permutations_Permutation. split; by intros ->. Qed.

Lemma rangeMap_NoDup {V} (m : gmap string V) order :
  order ∈ rangeMap m → NoDup order.*1.
Proof. intros ->%rangeMap_elem_of. apply NoDup_fst_map_to_list. Qed.

Lemma rangeMap_lookup {V} (m : gmap string V) order k v :
  order ∈ rangeMap m → (k, v) ∈ order ↔ m !! k = Some v.
Proof. intros ->%rangeMap_elem_of. apply elem_of_map_to_list. Qed.

Lemma rangeMap_total {V} (m : gmap string V) : map_to_list m ∈ rangeMap m.
Proof. by apply rangeMap_elem_of. Qed.

(** ** hasLabel and the namespace lookup *)

Lemma hasLabel_true labels name :
  hasLabel labels name = true ↔ name ∈ Name <$> labels.
Proof.
  induction labels as [|lbl rest IH]; simpl.
  - split; [done | by intros ?%elem_of_nil].
  - rewrite elem_of_cons, <-IH. case_decide; intuition congruence.
Qed.

Lemma hasLabel_false labels name :
  hasLabel labels name = false ↔ name ∉ Name <$> labels.
Proof. rewrite <-hasLabel_true. by destruct (hasLabel labels name). Qed.

Lemma hasLabel_app l1 l2 name :
  hasLabel (l1 ++ l2) name = hasLabel l1 name || hasLabel l2 name.
Proof. induction l1 as [|lbl l1 IH]; simpl; [done|]. by case_decide. Qed.

Lemma nsValueOf_app l1 l2 :
  hasLabel l1 "namespace" = true → nsValueOf (l1 ++ l2) = nsValueOf l1.
Proof.
  induction l1 as [|lbl l1 IH]; simpl; [done|]. case_decide; [done | apply IH].
Qed.

Lemma nsValueOf_nonempty labels :
  nsValueOf labels ≠ "" → hasLabel labels "namespace" = true.
Proof.
  induction labels as [|lbl rest IH]; simpl; [done|]. by case_decide.
Qed.

Lemma nsValueOf_absent labels :
  hasLabel labels "namespace" = false → nsValueOf labels = "".
Proof.
  induction labels as [|lbl rest IH]; simpl; [done|]. by case_decide.
Qed.

Lemma nsValueOf_unique labels v :
  NoDup (Name <$> labels) →
  {| Name := "namespace"; Value := v |} ∈ labels → nsValueOf labels = v.
Proof.
  induction labels as [|lbl rest IH]; simpl.
  - by intros _ ?%elem_of_nil.
  - intros [Hnot Hnd]%NoDup_cons [<-|Hin]%elem_of_cons.
    + done.
    + case_decide as Hn; [|by apply IH]. destruct Hnot. rewrite Hn.
      by apply (list_elem_of_fmap_2 Name) in Hin.
Qed.

(** ** The loop over the cached labels *)

Lemma added_names labels order :
  Name <$> added labels order = (filter (absent labels) order).*1.
Proof. unfold added. rewrite <-list_fmap_compose. done. Qed.

Lemma foldl_appendExtra labels order :
  NoDup order.*1 →
  foldl appendExtra labels order = labels ++ added labels order.
Proof.
  unfold added. induction order as [|kv order IH] using rev_ind; intros Hnd.
  - by rewrite filter_nil, app_nil_r.
  - rewrite fmap_app in Hnd. apply NoDup_app in Hnd as (Hnd & Hfresh & _).
    rewrite foldl_app, filter_app, fmap_app. simpl. rewrite IH by done.
    unfold appendExtra at 1. rewrite hasLabel_app.
    assert (hasLabel (newLabel <$> filter (absent labels) order) kv.1 = false) as ->.
    { apply hasLabel_false. fold (added labels order). rewrite added_names.
      intros (kv' & Heq & [_ Hin]%list_elem_of_filter)%list_elem_of_fmap.
      apply (Hfresh kv'.1); [by apply list_elem_of_fmap_2 | rewrite <-Heq; set_solver]. }
    rewrite orb_false_r, filter_cons, filter_nil.
    destruct (decide (absent labels kv)) as [Ha|Ha]; unfold absent in Ha.
    + rewrite Ha. simpl. by rewrite app_assoc.
    + apply not_false_is_true in Ha. rewrite Ha. simpl. by rewrite app_nil_r.
Qed.

(** ** What one pass does to a sample, a family, the collection *)

Lemma Metric_eq (m m' : Metric) :
  Label m' = Label m → Sample m' = Sample m → TimestampMs m' = TimestampMs m → m' = m.
Proof. destruct m, m'; simpl; congruence. Qed.

Lemma MetricFamily_eq (mf mf' : MetricFamily) :
  mfName mf' = mfName mf → mfHelp mf' = mfHelp mf → mfType mf' = mfType mf →
  mfMetric mf' = mfMetric mf → mf' = mf.
Proof. destruct mf, mf'; simpl; congruence. Qed.

Lemma enrichMetric_elem_of c m m' : m' ∈ enrichMetric c m ↔ enriched c m m'.
Proof.
  unfold enrichMetric, enriched, cachedLabels.
  destruct (decide (nsValueOf (Label m) = "")) as [Hns|Hns].
  - rewrite list_elem_of_ret. split; [by intros -> | intros (?&?&?); by apply Metric_eq].
  - destruct (Namespaces c !! nsValueOf (Label m)) as [extra|].
    + rewrite list_elem_of_bind. split.
      * intros (order & ->%list_elem_of_ret & Ho). simpl. split_and!; [done..|].
        exists order. split; [by apply rangeMap_elem_of|].
        apply foldl_appendExtra. by eapply rangeMap_NoDup.
      * intros (Hs & Ht & order & Hperm & Hl). exists order.
        apply rangeMap_elem_of in Hperm. split; [|done]. apply list_elem_of_ret.
        apply Metric_eq; simpl; [|done..].
        rewrite Hl. symmetry. apply foldl_appendExtra. by eapply rangeMap_NoDup.
    + rewrite list_elem_of_ret. split; [by intros -> | intros (?&?&?); by apply Metric_eq].
Qed.

Lemma enrichFamily_elem_of c mf mf' : mf' ∈ enrichFamily c mf ↔ enrichedFamily c mf mf'.
Proof.
  unfold enrichFamily, enrichedFamily. rewrite list_elem_of_bind. split.
  - intros (ms & ->%list_elem_of_ret & Hms%mapM_list_elem_of). simpl. split_and!; [done..|].
    eapply Forall2_impl; [done|]. intros ??. by apply enrichMetric_elem_of.
  - intros (Hn & Hh & Ht & Hms). exists (mfMetric mf'). split.
    + apply list_elem_of_ret. by apply MetricFamily_eq.
    + apply mapM_list_elem_of. eapply Forall2_impl; [done|].
      intros ??. by apply enrichMetric_elem_of.
Qed.

Lemma enrichLoop_elem_of c order fams fams' :
  NoDup order.*1 →
  fams' ∈ enrichLoop c order fams ↔
    (∀ k, k ∉ order.*1 → fams' !! k = fams !! k) ∧
    (∀ k mf, (k, mf) ∈ order → ∃ mf', fams' !! k = Some mf' ∧ enrichedFamily c mf mf').
Proof.
  revert fams. induction order as [|[k0 mf0] rest IH]; intros fams Hnd; simpl.
  - rewrite list_elem_of_ret. split.
    + intros ->. split; [done | by intros ?? ?%elem_of_nil].
    + intros [Hout _]. apply map_eq. intros k. apply Hout, not_elem_of_nil.
  - apply NoDup_cons in Hnd as [Hk0 Hnd]. rewrite list_elem_of_bind. split.
    + intros (mf0' & Hloop & Hmf0%enrichFamily_elem_of).
      apply IH in Hloop as [Hout Hin]; [|done]. split.
      * intros k [Hne Hk]%not_elem_of_cons. by rewrite Hout, lookup_insert_ne.
      * intros k mf [[= -> ->]|Hkm]%elem_of_cons; [|by apply Hin].
        exists mf0'. by rewrite Hout, lookup_insert_eq.
    + intros [Hout Hin]. destruct (Hin k0 mf0) as (mf0' & Hl & Hmf0); [left|].
      exists mf0'. split; [|by apply enrichFamily_elem_of]. apply IH; [done|]. split.
      * intros k Hk. destruct (decide (k = k0)) as [->|Hne].
        -- by rewrite lookup_insert_eq.
        -- rewrite lookup_insert_ne by done. apply Hout. by apply not_elem_of_cons.
      * intros k mf Hkm. apply Hin. by right.
Qed.

Lemma enrichLoop_range c order fams fams' :
  order ∈ rangeMap fams →
  fams' ∈ enrichLoop c order fams ↔ enrichedFamilies c fams fams'.
Proof.
  intros Ho. rewrite enrichLoop_elem_of by (by eapply rangeMap_NoDup).
  unfold enrichedFamilies. split.
  - intros [Hout Hin] k. destruct (fams !! k) as [mf|] eqn:Hk.
    + destruct (Hin k mf) as (mf' & -> & Hmf); [by eapply rangeMap_lookup|].
      by constructor.
    + rewrite Hout, Hk; [constructor|].
      intros ([k' mf] & -> & Hin')%list_elem_of_fmap. simpl in Hk.
      eapply rangeMap_lookup in Hin'; [|done]. congruence.
  - intros Hrel. split.
    + intros k Hk. specialize (Hrel k). destruct (fams !! k) as [mf|] eqn:Hfk.
      * destruct Hk. apply list_elem_of_fmap. exists (k, mf). split; [done|].
        by eapply rangeMap_lookup.
      * by inversion Hrel.
    + intros k mf Hkm. eapply rangeMap_lookup in Hkm; [|done]. specialize (Hrel k).
      rewrite Hkm in Hrel. inversion Hrel; subst. eauto.
Qed.

Lemma enriched_first c m : enriched c m (enrichMetricFirst c m).
Proof.
  unfold enriched, enrichMetricFirst.
  destruct (cachedLabels c (Label m)) as [extra|]; simpl; [|done].
  split_and!; [done..|]. by exists (map_to_list extra).
Qed.

Lemma enrichedFamily_first c mf : enrichedFamily c mf (enrichFamilyFirst c mf).
Proof.
  unfold enrichedFamily, enrichFamilyFirst. simpl. split_and!; [done..|].
  apply Forall2_fmap_r, Forall_Forall2_diag, Forall_forall.
  intros m _. apply enriched_first.
Qed.

Lemma enrichedFamilies_first c fams : enrichedFamilies c fams (enrichFamilyFirst c <$> fams).
Proof.
  intros k. rewrite lookup_fmap. destruct (fams !! k); constructor.
  apply enrichedFamily_first.
Qed.

(** ** Labels gained in a pass *)

Lemma added_complete labels order k v :
  (k, v) ∈ order → hasLabel labels k = false →
  {| Name := k; Value := v |} ∈ added labels order.
Proof.
  intros Hin Hk. unfold added. apply list_elem_of_fmap. exists (k, v).
  split; [done|]. by apply list_elem_of_filter.
Qed.

Lemma added_fresh labels order lbl :
  lbl ∈ added labels order → hasLabel labels (Name lbl) = false.
Proof.
  unfold added. intros (kv & -> & [Hk _]%list_elem_of_filter)%list_elem_of_fmap. done.
Qed.

Lemma added_from labels order lbl :
  lbl ∈ added labels order → (Name lbl, Value lbl) ∈ order.
Proof.
  unfold added. intros ([k v] & -> & [_ Hin]%list_elem_of_filter)%list_elem_of_fmap. done.
Qed.

Lemma added_NoDup labels order :
  NoDup order.*1 → NoDup (Name <$> added labels order).
Proof.
  intros Hnd. rewrite added_names. apply (sublist_NoDup _ (order.*1)); [done|].
  apply fmap_sublist, sublist_filter.
Qed.

Lemma added_saturated labels order order' :
  order' ≡ₚ order → added (labels ++ added labels order) order' = [].
Proof.
  intros Hperm. unfold added at 1.
  destruct (filter _ order') as [|kv rest] eqn:Hf; [done|]. exfalso.
  assert (kv ∈ filter (absent (labels ++ added labels order)) order') as Hkv
    by (rewrite Hf; left).
  apply list_elem_of_filter in Hkv as [Habs Hin]. unfold absent in Habs.
  rewrite hasLabel_app in Habs. apply orb_false_elim in Habs as [Hl Ha].
  apply hasLabel_false in Ha. destruct Ha. rewrite Hperm in Hin.
  apply (list_elem_of_fmap_2 Name (added labels order) (newLabel kv)).
  apply list_elem_of_fmap_2. by apply list_elem_of_filter.
Qed.

Lemma cachedLabels_Some c labels extra :
  cachedLabels c labels = Some extra →
  nsValueOf labels ≠ "" ∧ Namespaces c !! nsValueOf labels = Some extra.
Proof. unfold cachedLabels. by case_decide. Qed.

Lemma cachedLabels_app c labels more extra :
  cachedLabels c labels = Some extra → cachedLabels c (labels ++ more) = Some extra.
Proof.
  intros Hc. destruct (cachedLabels_Some _ _ _ Hc) as [Hns _].
  unfold cachedLabels in *. by rewrite nsValueOf_app by by apply nsValueOf_nonempty.
Qed.

(** A sample that went through a pass is left as it is by every later pass
    with the same cache. *)
Lemma enriched_stable c m m' m'' : enriched c m m' → enriched c m' m'' → m'' = m'.
Proof.
  intros (Hs & Ht & Hl) (Hs' & Ht' & Hl'). apply Metric_eq; [|done..].
  destruct (cachedLabels c (Label m)) as [extra|] eqn:Hc.
  - destruct Hl as (order & Hperm & Hl). rewrite Hl in Hl'.
    rewrite (cachedLabels_app _ _ _ _ Hc) in Hl'.
    destruct Hl' as (order' & Hperm' & Hl'). rewrite Hl', Hl.
    rewrite added_saturated; [by rewrite app_nil_r | by rewrite Hperm, Hperm'].
  - rewrite Hl, Hc in Hl'. congruence.
Qed.

Lemma enrichedFamily_stable c mf mf' mf'' :
  enrichedFamily c mf mf' → enrichedFamily c mf' mf'' → mf'' = mf'.
Proof.
  intros (_ & _ & _ & Hms) (Hn & Hh & Ht & Hms'). apply MetricFamily_eq; [done..|].
  clear Hn Hh Ht. revert Hms'. generalize (mfMetric mf''). 
  induction Hms as [|m m' ms ms' Hm Hms IH]; intros l Hl; inversion Hl; subst; [done|].
  f_equal; [by eapply enriched_stable | by apply IH].
Qed.

Lemma enrichedFamilies_stable c fams fams' fams'' :
  enrichedFamilies c fams fams' → enrichedFamilies c fams' fams'' → fams'' = fams'.
Proof.
  intros H1 H2. apply map_eq. intros k. specialize (H1 k). specialize (H2 k).
  destruct H2 as [mf' mf'' Hmf|]; [|done]. inversion H1; subst.
  f_equal. by eapply enrichedFamily_stable.
Qed.

Lemma enrichedFamilies_sample c fams fams' k mf i m :
  enrichedFamilies c fams fams' →
  fams !! k = Some mf → mfMetric mf !! i = Some m →
  ∃ mf' m', fams' !! k = Some mf' ∧ mfMetric mf' !! i = Some m' ∧
            enrichedFamily c mf mf' ∧ enriched c m m'.
Proof.
  intros Hrel Hk Hi. specialize (Hrel k). rewrite Hk in Hrel.
  inversion Hrel as [? mf' Hmf|]; subst.
  destruct Hmf as (Hn & Hh & Ht & Hms).
  destruct (Forall2_lookup_l _ _ _ _ _ Hms Hi) as (m' & Hi' & Hm).
  exists mf', m'. by split_and!.
Qed.

(** ** Strings *)

Lemma append_nil_r (s : string) : s +:+ "" = s.
Proof.
  induction s as [|a s IH]; [done|].
  change (String a (s +:+ "") = String a s). by f_equal.
Qed.

Lemma append_assoc (s1 s2 s3 : string) : (s1 +:+ s2) +:+ s3 = s1 +:+ (s2 +:+ s3).
Proof.
  induction s1 as [|a s1 IH]; [done|].
  change (String a ((s1 +:+ s2) +:+ s3) = String a (s1 +:+ (s2 +:+ s3))). by f_equal.
Qed.

(** ** The second loop *)

Section encodeLoop_facts.
Variable Encode : MetricFamily → string * option error.
Variable Quote : string → string.

Lemma encodeLoop_ok order sb :
  (∀ kmf, kmf ∈ order → (Encode kmf.2).2 = None) →
  encodeLoop Encode Quote order sb = (sb +:+ blocks Encode order, None).
Proof.
  unfold blocks. revert sb. induction order as [|[k mf] rest IH]; intros sb Hall; simpl.
  - by rewrite append_nil_r.
  - specialize (Hall (k, mf) ltac:(left)) as Hk. simpl in Hk.
    destruct (Encode mf) as [out err]. simpl in *. subst err.
    rewrite IH, append_assoc; [done|]. intros kmf Hin. apply Hall. by right.
Qed.

(** An error of the encoder discards what was written before it. *)
Lemma encodeLoop_error order sb e :
  (encodeLoop Encode Quote order sb).2 = Some e →
  (encodeLoop Encode Quote order sb).1 = "".
Proof.
  revert sb. induction order as [|[k mf] rest IH]; intros sb; simpl; [done|].
  destruct (Encode mf) as [out [e'|]]; [done | apply IH].
Qed.

(** An error the loop returns is the encoder's, on one of the families. *)
Lemma encodeLoop_error_source order sb e :
  (encodeLoop Encode Quote order sb).2 = Some e →
  ∃ k mf e0, (k, mf) ∈ order ∧ (Encode mf).2 = Some e0 ∧
    e = Errorf ("failed to encode metric family " +:+ Quote (mfName mf) +:+ ": ") e0.
Proof.
  revert sb. induction order as [|[k mf] rest IH]; intros sb; simpl; [done|].
  destruct (Encode mf) as [out [e0|]] eqn:Hmf; simpl.
  - intros [= <-]. exists k, mf, e0. rewrite Hmf. split_and!; [left | done | done].
  - intros (k' & mf' & e0 & Hin & He)%IH. exists k', mf', e0. split; [by right | done].
Qed.

End encodeLoop_facts.

(** ** EnrichMetricFamilies *)

Section EnrichMetricFamilies_facts.
Variable Encode : MetricFamily → string * option error.
Variable Quote : string → string.

Lemma encodeFamilies_elem_of fams r :
  r ∈ encodeFamilies Encode Quote fams ↔ ∃ order, order ≡ₚ map_to_list fams ∧ r = encodeLoop Encode Quote order "".
Proof.
  unfold encodeFamilies. rewrite list_elem_of_bind. split.
  - intros (order & ->%list_elem_of_ret & Ho%rangeMap_elem_of). eauto.
  - intros (order & Ho & ->). exists order.
    split; [by apply list_elem_of_ret | by apply rangeMap_elem_of].
Qed.

Lemma EnrichMetricFamilies_elem_of st o :
  o ∈ EnrichMetricFamilies Encode Quote st ↔
    nm o.1 = nm st ∧ enrichedFamilies (nm st) (families st) (families o.1) ∧
    o.2 ∈ encodeFamilies Encode Quote (families o.1).
Proof.
  unfold EnrichMetricFamilies. rewrite list_elem_of_bind. split.
  - intros (order & (fams' & (res & ->%list_elem_of_ret & Hres)%list_elem_of_bind
                     & Hloop)%list_elem_of_bind & Ho).
    simpl. split_and!; [done| |done]. by eapply enrichLoop_range.
  - destruct o as [[fams' c'] res]. simpl. intros (-> & Hrel & Hres).
    exists (map_to_list (families st)). split; [|apply rangeMap_total].
    apply list_elem_of_bind. exists fams'. split.
    + apply list_elem_of_bind. exists res. split; [by apply list_elem_of_ret | done].
    + eapply enrichLoop_range; [apply rangeMap_total | done].
Qed.

(** The function returns on every input. *)
Lemma EnrichMetricFamilies_total st : ∃ o, o ∈ EnrichMetricFamilies Encode Quote st.
Proof.
  set (fams' := enrichFamilyFirst (nm st) <$> families st).
  exists ({| families := fams'; nm := nm st |}, encodeLoop Encode Quote (map_to_list fams') "").
  apply EnrichMetricFamilies_elem_of. simpl. split_and!; [done | |].
  - apply enrichedFamilies_first.
  - apply encodeFamilies_elem_of. by exists (map_to_list fams').
Qed.

Lemma EnrichMetricFamilies_sample st o fk mf i m :
  o ∈ EnrichMetricFamilies Encode Quote st →
  families st !! fk = Some mf → mfMetric mf !! i = Some m →
  ∃ mf' m', families o.1 !! fk = Some mf' ∧ mfMetric mf' !! i = Some m' ∧
            enrichedFamily (nm st) mf mf' ∧ enriched (nm st) m m'.
Proof.
  intros (_ & Hrel & _)%EnrichMetricFamilies_elem_of. by apply enrichedFamilies_sample.
Qed.

(** C1 (as amended).  A sample whose [namespace] label (the first label of
    that name) has a non-empty value that is a key of the cache comes out
    with, for every pair of that namespace's cached label set whose key is
    not a label name of the sample, a label with that key and the cached
    value; and the call always has an outcome. *)
Theorem enrich_adds_cached_labels st fk mf i m extra :
  families st !! fk = Some mf → mfMetric mf !! i = Some m →
  nsValueOf (Label m) ≠ "" →
  Namespaces (nm st) !! nsValueOf (Label m) = Some extra →
  (∃ o, o ∈ EnrichMetricFamilies Encode Quote st) ∧
  ∀ o, o ∈ EnrichMetricFamilies Encode Quote st →
    ∃ mf' m', families o.1 !! fk = Some mf' ∧ mfMetric mf' !! i = Some m' ∧
      ∀ k v, extra !! k = Some v → hasLabel (Label m) k = false →
             {| Name := k; Value := v |} ∈ Label m'.
Proof.
  intros Hfk Hi Hns Hextra. split; [apply EnrichMetricFamilies_total|].
  intros o Ho. destruct (EnrichMetricFamilies_sample _ _ _ _ _ _ Ho Hfk Hi)
    as (mf' & m' & Hfk' & Hi' & _ & _ & _ & Hl).
  exists mf', m'. split_and!; [done..|]. intros k v Hk Habs.
  unfold cachedLabels in Hl. rewrite decide_False, Hextra in Hl by done.
  destruct Hl as (order & Hperm & ->). apply elem_of_app. right.
  apply added_complete; [|done]. rewrite Hperm. by apply elem_of_map_to_list.
Qed.

(** C2.  Every label of a sample is still there after the call, at the same
    place and with the value it had; the labels the call adds have names the
    sample did not carry and that differ from one another, so a sample whose
    label names were unique still has unique label names. *)
Theorem enrich_keeps_labels st fk mf i m :
  families st !! fk = Some mf → mfMetric mf !! i = Some m →
  (∃ o, o ∈ EnrichMetricFamilies Encode Quote st) ∧
  ∀ o, o ∈ EnrichMetricFamilies Encode Quote st →
    ∃ mf' m' more, families o.1 !! fk = Some mf' ∧ mfMetric mf' !! i = Some m' ∧
      Label m' = Label m ++ more ∧
      (∀ j lbl, Label m !! j = Some lbl → Label m' !! j = Some lbl) ∧
      (∀ lbl, lbl ∈ more → hasLabel (Label m) (Name lbl) = false) ∧
      NoDup (Name <$> more) ∧
      (NoDup (Name <$> Label m) → NoDup (Name <$> Label m')).
Proof.
  intros Hfk Hi. split; [apply EnrichMetricFamilies_total|].
  intros o Ho. destruct (EnrichMetricFamilies_sample _ _ _ _ _ _ Ho Hfk Hi)
    as (mf' & m' & Hfk' & Hi' & _ & _ & _ & Hl).
  exists mf', m'.
  assert (∃ more, Label m' = Label m ++ more ∧
            (∀ lbl, lbl ∈ more → hasLabel (Label m) (Name lbl) = false) ∧
            NoDup (Name <$> more)) as (more & Heq & Hfresh & Hnd).
  { destruct (cachedLabels (nm st) (Label m)) as [extra|].
    - destruct Hl as (order & Hperm & ->). exists (added (Label m) order).
      split_and!; [done | apply added_fresh |].
      apply added_NoDup. rewrite Hperm. apply NoDup_fst_map_to_list.
    - exists []. rewrite app_nil_r. split_and!; [done | by intros ? ?%elem_of_nil |].
      constructor. }
  exists more. split_and!; [done..| | done | done |].
  - intros j lbl Hj. rewrite Heq. by apply lookup_app_l_Some.
  - intros Hm. rewrite Heq, fmap_app. apply NoDup_app. split_and!; [done| |done].
    intros name Hin (lbl & -> & Hlbl)%list_elem_of_fmap.
    apply Hfresh, hasLabel_false in Hlbl. done.
Qed.

(** C3 (as amended).  A sample without a [namespace] label, or whose namespace value is
    not a key of the cache, is the same sample after the call; with an empty
    cache the whole collection is left as it was and the result is that of
    encoding it: an error, if any, is the encoder's on one of the families
    given, and there is none when the encoder accepts them all. *)
Theorem enrich_passes_unmatched st :
  (∃ o, o ∈ EnrichMetricFamilies Encode Quote st) ∧
  ∀ o, o ∈ EnrichMetricFamilies Encode Quote st →
    (∀ fk mf i m,
       families st !! fk = Some mf → mfMetric mf !! i = Some m →
       hasLabel (Label m) "namespace" = false ∨
         Namespaces (nm st) !! nsValueOf (Label m) = None →
       ∃ mf', families o.1 !! fk = Some mf' ∧ mfMetric mf' !! i = Some m) ∧
    (Namespaces (nm st) = ∅ →
       o.1 = st ∧ o.2 ∈ encodeFamilies Encode Quote (families st) ∧
       (∀ e, o.2.2 = Some e →
          ∃ k mf e0, families st !! k = Some mf ∧ (Encode mf).2 = Some e0 ∧
            e = Errorf ("failed to encode metric family " +:+ Quote (mfName mf) +:+ ": ") e0) ∧
       ((∀ k mf, families st !! k = Some mf → (Encode mf).2 = None) → o.2.2 = None)).
Proof.
  split; [apply EnrichMetricFamilies_total|]. intros o Ho. split.
  - intros fk mf i m Hfk Hi Hcase.
    destruct (EnrichMetricFamilies_sample _ _ _ _ _ _ Ho Hfk Hi)
      as (mf' & m' & Hfk' & Hi' & _ & Hs & Ht & Hl).
    exists mf'. split; [done|]. rewrite Hi'. f_equal. apply Metric_eq; [|done..].
    assert (cachedLabels (nm st) (Label m) = None) as Hc; [|by rewrite Hc in Hl].
    unfold cachedLabels. case_decide as Hns; [done|].
    destruct Hcase as [Hno|Hnone]; [|done].
    by rewrite nsValueOf_absent in Hns.
  - intros Hempty. apply EnrichMetricFamilies_elem_of in Ho as (Hnm & Hrel & Hres).
    assert (families o.1 = families st) as Hfams.
    { apply map_eq. intros k. specialize (Hrel k).
      destruct Hrel as [mf mf' (Hn & Hh & Ht & Hms)|]; [|done]. f_equal.
      apply MetricFamily_eq; [done..|]. symmetry. apply list_eq_Forall2.
      eapply Forall2_impl; [done|]. intros m m' (Hs & Hts & Hl). symmetry.
      apply Metric_eq; [|done..]. unfold cachedLabels in Hl.
      rewrite Hempty, lookup_empty in Hl. by case_decide. }
    rewrite Hfams in Hres. split_and!; [|done| |].
    + destruct o as [[fams' c'] res]. simpl in *. by rewrite Hfams, Hnm; destruct st.
    + intros e He. apply encodeFamilies_elem_of in Hres as (order & Hperm & Hr).
      rewrite Hr in He. apply encodeLoop_error_source in He as (k & mf & e0 & Hin & He).
      exists k, mf, e0. split; [|done]. rewrite Hperm in Hin.
      by apply elem_of_map_to_list.
    + intros Hok. apply encodeFamilies_elem_of in Hres as (order & Hperm & ->).
      rewrite encodeLoop_ok; [done|]. intros [k mf] Hin. rewrite Hperm in Hin.
      apply elem_of_map_to_list in Hin. eauto.
Qed.

(** C10.  A sample whose [namespace] label is there with the empty string
    as its value is the same sample after the call, like a sample with no
    such label, whatever the cache holds (an entry under the empty key
    included). *)
Theorem enrich_skips_empty_namespace st fk mf i m :
  families st !! fk = Some mf → mfMetric mf !! i = Some m →
  hasLabel (Label m) "namespace" = true → nsValueOf (Label m) = "" →
  (∃ o, o ∈ EnrichMetricFamilies Encode Quote st) ∧
  ∀ o, o ∈ EnrichMetricFamilies Encode Quote st →
    ∃ mf', families o.1 !! fk = Some mf' ∧ mfMetric mf' !! i = Some m.
Proof.
  intros Hfk Hi _ Hns. split; [apply EnrichMetricFamilies_total|]. intros o Ho.
  destruct (EnrichMetricFamilies_sample _ _ _ _ _ _ Ho Hfk Hi)
    as (mf' & m' & Hfk' & Hi' & _ & Hs & Ht & Hl).
  exists mf'. split; [done|]. rewrite Hi'. f_equal. apply Metric_eq; [|done..].
  unfold cachedLabels in Hl. by rewrite decide_True in Hl.
Qed.

End EnrichMetricFamilies_facts.

(** ** The encoding step, idempotence, effects *)

Lemma enrichedFamilies_size c fams fams' :
  enrichedFamilies c fams fams' → size fams' = size fams.
Proof.
  intros Hrel. rewrite <-!(size_dom (D := gset string)). f_equal.
  apply set_eq. intros k. rewrite !elem_of_dom. specialize (Hrel k).
  destruct Hrel; split; intros [? ?]; by eauto.
Qed.

Lemma encodeFamilies_unique Encode Quote fams :
  (size fams ≤ 1)%nat →
  ∀ r1 r2, r1 ∈ encodeFamilies Encode Quote fams →
           r2 ∈ encodeFamilies Encode Quote fams → r1 = r2.
Proof.
  intros Hsize r1 r2 (o1 & Hp1 & ->)%encodeFamilies_elem_of
                     (o2 & Hp2 & ->)%encodeFamilies_elem_of.
  rewrite <-length_map_to_list in Hsize. f_equal.
  destruct (map_to_list fams) as [|x [|y l]]; simpl in Hsize; [| |lia].
  - apply Permutation_nil_r in Hp1, Hp2. congruence.
  - apply Permutation_singleton_r in Hp1, Hp2. congruence.
Qed.

Section Encoding_facts.
Variable Encode : MetricFamily → string * option error.
Variable Quote : string → string.

(** C4 (as amended).  A second call with the same cache leaves the
    collection as the first call left it, and what two calls in a row can
    produce (collection and returned text or error) is exactly what one call
    can produce.  What the second call returns is a result of encoding the
    very collection the first call's return encodes, so the two can differ
    in the order of the families only, and are the same when there is at
    most one family. *)
Theorem enrich_idempotent st :
  (∀ o1 o2, o1 ∈ EnrichMetricFamilies Encode Quote st →
            o2 ∈ EnrichMetricFamilies Encode Quote o1.1 →
            o2.1 = o1.1 ∧ o2 ∈ EnrichMetricFamilies Encode Quote st) ∧
  (∀ o, o ∈ EnrichMetricFamilies Encode Quote st →
        o ∈ EnrichMetricFamilies Encode Quote o.1) ∧
  (∀ o, o ∈ (o1 ← EnrichMetricFamilies Encode Quote st;
             EnrichMetricFamilies Encode Quote o1.1)
        ↔ o ∈ EnrichMetricFamilies Encode Quote st) ∧
  (∀ o1 o2, o1 ∈ EnrichMetricFamilies Encode Quote st →
            o2 ∈ EnrichMetricFamilies Encode Quote o1.1 →
            o1.2 ∈ encodeFamilies Encode Quote (families o1.1) ∧
            o2.2 ∈ encodeFamilies Encode Quote (families o1.1) ∧
            ((size (families st) ≤ 1)%nat → o2 = o1)).
Proof.
  assert (∀ o1 o2, o1 ∈ EnrichMetricFamilies Encode Quote st →
            o2 ∈ EnrichMetricFamilies Encode Quote o1.1 →
            o2.1 = o1.1 ∧ o2 ∈ EnrichMetricFamilies Encode Quote st) as Htwice.
  { intros o1 o2 (Hnm1 & Hrel1 & Hres1)%EnrichMetricFamilies_elem_of
                 (Hnm2 & Hrel2 & Hres2)%EnrichMetricFamilies_elem_of.
    rewrite Hnm1 in Hrel2.
    pose proof (enrichedFamilies_stable _ _ _ _ Hrel1 Hrel2) as Hfams.
    split.
    - destruct o1 as [[f1 c1] r1], o2 as [[f2 c2] r2]. simpl in *. congruence.
    - apply EnrichMetricFamilies_elem_of. rewrite Hfams. split_and!; [congruence | done |].
      by rewrite <-Hfams. }
  assert (∀ o, o ∈ EnrichMetricFamilies Encode Quote st →
               o ∈ EnrichMetricFamilies Encode Quote o.1) as Hagain.
  { intros o Ho. destruct (EnrichMetricFamilies_total Encode Quote o.1) as [o2 Ho2].
    destruct (Htwice _ _ Ho Ho2) as [Hst _].
    apply EnrichMetricFamilies_elem_of in Ho as (Hnm1 & Hrel1 & Hres1).
    apply EnrichMetricFamilies_elem_of in Ho2 as (Hnm2 & Hrel2 & Hres2).
    apply EnrichMetricFamilies_elem_of. rewrite Hst in Hrel2. by split_and!. }
  split_and!; [done..| |].
  - intros o. rewrite list_elem_of_bind. split.
    + intros (o1 & Ho & Ho1). by eapply Htwice.
    + intros Ho. exists o. split; [by apply Hagain | done].
  - intros o1 o2 Ho1 Ho2. destruct (Htwice _ _ Ho1 Ho2) as [Hst _].
    apply EnrichMetricFamilies_elem_of in Ho1 as (_ & Hrel1 & Hres1).
    apply EnrichMetricFamilies_elem_of in Ho2 as (_ & _ & Hres2).
    rewrite Hst in Hres2. split_and!; [done..|]. intros Hsize.
    rewrite <-(enrichedFamilies_size _ _ _ Hrel1) in Hsize.
    pose proof (encodeFamilies_unique Encode Quote _ Hsize _ _ Hres1 Hres2) as Hres.
    destruct o1, o2. simpl in *. congruence.
Qed.

(** C5 (as amended).  For a fixed model the encoding step may visit the
    families in any order and in no other way: its results are those of the
    second loop run over the permutations of the families; when the encoder
    accepts every family the text is the blocks of the families put one
    after the other in that order; and the result is unique when the model
    has at most one family. *)
Theorem encode_order_is_map_order fams :
  (∀ r, r ∈ encodeFamilies Encode Quote fams ↔
        ∃ order, order ≡ₚ map_to_list fams ∧ r = encodeLoop Encode Quote order "") ∧
  (∀ order, order ≡ₚ map_to_list fams →
     (∀ k mf, fams !! k = Some mf → (Encode mf).2 = None) →
     encodeLoop Encode Quote order "" = (blocks Encode order, None)) ∧
  ((size fams ≤ 1)%nat →
     ∀ r1 r2, r1 ∈ encodeFamilies Encode Quote fams →
              r2 ∈ encodeFamilies Encode Quote fams → r1 = r2).
Proof.
  split_and!.
  - apply encodeFamilies_elem_of.
  - intros order Hperm Hok. rewrite encodeLoop_ok; [done|].
    intros [k mf] Hin. rewrite Hperm in Hin. apply elem_of_map_to_list in Hin. eauto.
  - intros Hsize r1 r2 (o1 & Hp1 & ->)%encodeFamilies_elem_of
                      (o2 & Hp2 & ->)%encodeFamilies_elem_of.
    rewrite <-length_map_to_list in Hsize. f_equal.
    destruct (map_to_list fams) as [|x [|y l]]; simpl in Hsize; [| |lia].
    + apply Permutation_nil_r in Hp1, Hp2. congruence.
    + apply Permutation_singleton_r in Hp1, Hp2. congruence.
Qed.

(** C6 (as amended).  The call leaves the cache as it was and works on the
    collection it was given: afterwards that collection has the same keys,
    every family its name, help, type and number of samples, every sample
    its payload and timestamp, and every label list is the one before the
    call followed by the labels added. *)
Theorem enrich_writes_labels_only st :
  (∃ o, o ∈ EnrichMetricFamilies Encode Quote st) ∧
  ∀ o, o ∈ EnrichMetricFamilies Encode Quote st →
  nm o.1 = nm st ∧
  dom (families o.1) = dom (families st) ∧
  ∀ fk mf, families st !! fk = Some mf →
    ∃ mf', families o.1 !! fk = Some mf' ∧
      mfName mf' = mfName mf ∧ mfHelp mf' = mfHelp mf ∧ mfType mf' = mfType mf ∧
      length (mfMetric mf') = length (mfMetric mf) ∧
      ∀ i m, mfMetric mf !! i = Some m →
        ∃ m', mfMetric mf' !! i = Some m' ∧
          Sample m' = Sample m ∧ TimestampMs m' = TimestampMs m ∧
          Label m `prefix_of` Label m'.
Proof.
  split; [apply EnrichMetricFamilies_total|].
  intros o (Hnm & Hrel & _)%EnrichMetricFamilies_elem_of. split_and!; [done| |].
  - apply set_eq. intros k. rewrite !elem_of_dom. specialize (Hrel k).
    destruct Hrel; split; intros [? ?]; by eauto.
  - intros fk mf Hfk. specialize (Hrel fk). rewrite Hfk in Hrel.
    inversion Hrel as [? mf' (Hn & Hh & Ht & Hms)|]; subst.
    exists mf'. split_and!; [done..| |].
    + symmetry. by eapply Forall2_length.
    + intros i m Hi. destruct (Forall2_lookup_l _ _ _ _ _ Hms Hi) as (m' & Hi' & Hs & Hts & Hl).
      exists m'. split_and!; [done..|].
      destruct (cachedLabels (nm st) (Label m)).
      * destruct Hl as (order & _ & ->). by apply prefix_app_r.
      * by rewrite Hl.
Qed.

End Encoding_facts.

(** ** The scrape handler *)

Lemma httpError_fresh msg code :
  httpError msg code newResponseWriter =
    {| Header := errorHeaders; Sent := Some (code, errorHeaders); Body := msg +:+ newline |}.
Proof.
  unfold httpError, HeaderSet, HeaderDel, Write, WriteHeader, newResponseWriter. simpl.
  by rewrite delete_empty.
Qed.

Lemma write_fresh data :
  Write data (HeaderSet "Content-Type" "text/plain; version=0.0.4" newResponseWriter) =
    {| Header := {[ "Content-Type" := "text/plain; version=0.0.4" ]};
       Sent := Some (StatusOK, {[ "Content-Type" := "text/plain; version=0.0.4" ]});
       Body := data |}.
Proof. done. Qed.

Section Pipeline_facts.
Variable Encode : MetricFamily → string * option error.
Variable Quote : string → string.
Variable TextToMetricFamilies : string → gmap string MetricFamily * option error.
Variable TransportFor : RestConfig → option error.
Variable NewRequest : string → option error.
Variable Do : RestConfig → bool → string → HttpResponse + error.

Local Abbreviation fetched opts :=
  (fetchMetrics TransportFor NewRequest Do (RestConfigOf opts) opts (Insecure (RestConfigOf opts))).

(** C9.  The handler always answers, and every answer is of one of two
    kinds.  Either the fetch, the parse and the enrich-and-encode call all
    succeeded: the status is 200, the Content-Type sent is
    [text/plain; version=0.0.4] and the body is the text the call returned.
    Or one of them failed: the status is 500, the Content-Type sent is
    plain text and the body is the line describing the failure of that
    stage, and nothing else. *)
Theorem handler_response c opts r :
  (∃ w', w' ∈ Handler Encode Quote TextToMetricFamilies TransportFor NewRequest Do
                  c opts newResponseWriter r) ∧
  ∀ w', w' ∈ Handler Encode Quote TextToMetricFamilies TransportFor NewRequest Do
               c opts newResponseWriter r →
    (∃ fams o text,
        (fetched opts).2 = None ∧
        TextToMetricFamilies (fetched opts).1 = (fams, None) ∧
        o ∈ EnrichMetricFamilies Encode Quote {| families := fams; nm := c |} ∧
        o.2 = (text, None) ∧
        Sent w' = Some (200%Z, {[ "Content-Type" := "text/plain; version=0.0.4" ]}) ∧
        Body w' = text)
    ∨
    (∃ e,
        ((∃ e0, (fetched opts).2 = Some e0 ∧ e = "fetch error: " +:+ e0) ∨
         (∃ fams e0, (fetched opts).2 = None ∧
            TextToMetricFamilies (fetched opts).1 = (fams, Some e0) ∧
            e = "failed to parse metrics: " +:+ e0) ∨
         (∃ fams o e0, (fetched opts).2 = None ∧
            TextToMetricFamilies (fetched opts).1 = (fams, None) ∧
            o ∈ EnrichMetricFamilies Encode Quote {| families := fams; nm := c |} ∧
            o.2.2 = Some e0 ∧ e = "failed to enrich metrics: " +:+ e0)) ∧
        (∃ hdr, Sent w' = Some (500%Z, hdr) ∧
                hdr !! "Content-Type" = Some "text/plain; charset=utf-8") ∧
        Body w' = ("failed to fetch/process metrics: " +:+ e) +:+ newline).
Proof.
  unfold Handler, FetchAndProcessMetrics.
  destruct (fetched opts) as [raw [e0|]] eqn:Hfetch; simpl.
  { split; [eexists; by left|]. intros w' ->%list_elem_of_singleton. right.
    eexists. rewrite httpError_fresh. simpl. split_and!; [left; eauto | | done].
    by exists errorHeaders. }
  destruct (TextToMetricFamilies raw) as [fams [e0|]] eqn:Hparse; simpl.
  { split; [eexists; by left|]. intros w' ->%list_elem_of_singleton. right.
    eexists. rewrite httpError_fresh. simpl. split_and!; [right; left; eauto | | done].
    by exists errorHeaders. }
  assert (∀ w', w' ∈ (out ← (o ← EnrichMetricFamilies Encode Quote {| families := fams; nm := c |};
                            let '(enriched, err) := o.2 in
                            match err with
                            | Some err => mret ("", Some (Errorf "failed to enrich metrics: " err))
                            | None => mret (enriched, None)
                            end);
                   let '(data, err) := out in
                   match err with
                   | Some err => mret (httpError ("failed to fetch/process metrics: " +:+ err)
                                         StatusInternalServerError newResponseWriter)
                   | None => mret (Write data (HeaderSet "Content-Type"
                                         "text/plain; version=0.0.4" newResponseWriter))
                   end) ↔
          ∃ o, o ∈ EnrichMetricFamilies Encode Quote {| families := fams; nm := c |} ∧
               w' = match o.2.2 with
                    | Some err => httpError ("failed to fetch/process metrics: " +:+
                                    Errorf "failed to enrich metrics: " err)
                                    StatusInternalServerError newResponseWriter
                    | None => Write o.2.1 (HeaderSet "Content-Type"
                                    "text/plain; version=0.0.4" newResponseWriter)
                    end) as Hchar.
  { intros w'. rewrite list_elem_of_bind. split.
    - intros ([data err] & Hw & (o & Hout & Ho)%list_elem_of_bind). exists o.
      split; [done|]. destruct o as [st' [text [e1|]]]; simpl in *;
        apply list_elem_of_ret in Hout; injection Hout as -> ->;
        by apply list_elem_of_ret in Hw.
    - intros (o & Ho & ->). destruct o as [st' [text [e1|]]]; simpl.
      + exists ("", Some (Errorf "failed to enrich metrics: " e1)).
        split; [by apply list_elem_of_ret|]. apply list_elem_of_bind.
        eexists. split; [|done]. by apply list_elem_of_ret.
      + exists (text, None). split; [by apply list_elem_of_ret|]. apply list_elem_of_bind.
        eexists. split; [|done]. by apply list_elem_of_ret. }
  split.
  - destruct (EnrichMetricFamilies_total Encode Quote {| families := fams; nm := c |})
      as [o Ho]. eexists. apply Hchar. eauto.
  - intros w' (o & Ho & ->)%Hchar. destruct o as [st' [text [e1|]]]; cbn [fst snd].
    + right. eexists. rewrite httpError_fresh. simpl.
      split_and!; [right; right; exists fams; eexists; eexists; eauto | | done].
      by exists errorHeaders.
    + left. exists fams. eexists. exists text. rewrite write_fresh. simpl.
      split_and!; [done | done | done | done | done | done].
Qed.

End Pipeline_facts.

(** ** Reconcile *)

Lemma foldl_stripName order labels :
  foldl stripName labels order =
    if decide (LabelMetadataName ∈ order.*1) then delete LabelMetadataName labels else labels.
Proof.
  revert labels. induction order as [|[k v] rest IH]; intros labels.
  - done.
  - cbn [foldl]. rewrite IH. unfold stripName. cbn [fst fmap list_fmap].
    destruct (decide (k = LabelMetadataName)) as [->|Hk].
    + rewrite delete_delete_eq.
      rewrite (decide_True (P := LabelMetadataName ∈ LabelMetadataName :: _)) by left.
      by case_decide.
    + destruct (decide (LabelMetadataName ∈ rest.*1)) as [Hin|Hin].
      * rewrite decide_True; [done | by right].
      * rewrite decide_False; [done|]. intros [?|?]%elem_of_cons; congruence.
Qed.

Lemma range_stripName labels order :
  order ∈ rangeMap labels → foldl stripName labels order = delete LabelMetadataName labels.
Proof.
  intros Ho. rewrite foldl_stripName. case_decide as Hin; [done|].
  symmetry. apply delete_id. destruct (labels !! LabelMetadataName) as [v|] eqn:Hl; [|done].
  destruct Hin. apply list_elem_of_fmap. exists (LabelMetadataName, v).
  split; [done|]. by eapply rangeMap_lookup.
Qed.

Section Controller_facts.
Variable Get : string → Namespace + apiError.

(** C7 (as amended).  When the namespace is read and has at least one
    label, the reconcile succeeds and the cache is the old one with the
    entry of that name set to the label set read minus the name-identity
    label, whatever was stored under that name before; when it is read
    without any label the reconcile succeeds and the cache is left as it
    was. *)
Theorem reconcile_replaces_entry c req ns :
  Get (NamespacedName req) = inl ns →
  (∃ o, o ∈ Reconcile Get c req) ∧
  ∀ o, o ∈ Reconcile Get c req →
    o.2 = (emptyResult, None) ∧
    (Labels ns ≠ ∅ →
       Namespaces o.1 =
         <[nsName ns := delete LabelMetadataName (Labels ns)]> (Namespaces c) ∧
       Namespaces o.1 !! nsName ns = Some (delete LabelMetadataName (Labels ns)) ∧
       ∀ other, other ≠ nsName ns → Namespaces o.1 !! other = Namespaces c !! other) ∧
    (Labels ns = ∅ → o.1 = c).
Proof.
  intros Hget. unfold Reconcile. rewrite Hget.
  destruct (decide (size (Labels ns) = 0%nat)) as [Hsz|Hsz].
  - apply map_size_empty_iff in Hsz. split; [eexists; by left|].
    intros o ->%list_elem_of_singleton. simpl. by split_and!.
  - apply map_size_non_empty_iff in Hsz. split.
    + eexists. apply list_elem_of_bind. exists (map_to_list (Labels ns)).
      split; [by left | apply rangeMap_total].
    + intros o (order & ->%list_elem_of_ret & Ho)%list_elem_of_bind. simpl.
      rewrite (range_stripName _ _ Ho). split_and!; [done| |done].
      intros _. split_and!; [done | apply lookup_insert_eq |].
      intros other Hne. by rewrite lookup_insert_ne.
Qed.

(** C8.  When the read of the namespace fails with not-found, the
    reconcile has one outcome: no error, no requeue, and the cache as it
    was, the entry of that name included. *)
Theorem reconcile_not_found c req msg :
  Get (NamespacedName req) = inr (NotFound msg) →
  Reconcile Get c req = [ (c, (emptyResult, None)) ] ∧
  ∀ o, o ∈ Reconcile Get c req →
    o.2.2 = None ∧ Requeue o.2.1 = false ∧ RequeueAfter o.2.1 = 0%Z ∧
    o.1 = c ∧
    Namespaces o.1 !! NamespacedName req = Namespaces c !! NamespacedName req.
Proof.
  intros Hget. unfold Reconcile. rewrite Hget. simpl. split; [done|].
  by intros o ->%list_elem_of_singleton.
Qed.

End Controller_facts.

(** ** Runs on concrete inputs *)

Example scenarioA_run :
  (λ o, (λ mf, Label <$> mfMetric mf) <$> (map_to_list (families o.1)).*2) <$>
    EnrichMetricFamilies lineEncoder plainQuote storeA
  = [ [ [ [ {| Name := "namespace"; Value := "frontend-service1" |};
            {| Name := "pod"; Value := "x" |};
            {| Name := "team"; Value := "frontend" |} ] ] ] ].
Proof. vm_compute. reflexivity. Qed.

Example emptyNamespace_run :
  fst <$> EnrichMetricFamilies lineEncoder plainQuote storeE = [ storeE ].
Proof. vm_compute. reflexivity. Qed.

Example scenarioA_store :
  fst <$> EnrichMetricFamilies lineEncoder plainQuote storeA = [ storeA' ].
Proof. vm_compute. reflexivity. Qed.

Example scenarioA_text :
  snd <$> EnrichMetricFamilies lineEncoder plainQuote storeA =
    [ (renderMetric "container_cpu_usage" sampleA', None) ].
Proof. vm_compute. reflexivity. Qed.

Example famsAB_texts :
  encodeFamilies lineEncoder plainQuote famsAB ≡ₚ
    [ (renderMetric "a" (withLabel sampleE []) +:+ renderMetric "b" (withLabel sampleE []), None);
      (renderMetric "b" (withLabel sampleE []) +:+ renderMetric "a" (withLabel sampleE []), None) ].
Proof. vm_compute. first [ reflexivity | apply perm_swap ]. Qed.

Example storeNone_run :
  (λ o, bool_decide (o.2.2 = None)) <$>
    EnrichMetricFamilies lineEncoder plainQuote storeNone = [ false ].
Proof. vm_compute. reflexivity. Qed.

Example scenarioB_run :
  fst <$> EnrichMetricFamilies lineEncoder plainQuote (storeOf sampleB) = [ storeOf sampleB ].
Proof. vm_compute. reflexivity. Qed.

Example scenarioC_run :
  fst <$> EnrichMetricFamilies lineEncoder plainQuote (storeOf sampleC) = [ storeOf sampleC ].
Proof. vm_compute. reflexivity. Qed.

(** Scenario D: the namespace is gone, the reconcile sees not-found, and the
    entry is still applied to the samples of the next scrape. *)
Example scenarioD_run :
  (o ← Reconcile goneNamespace cacheA {| NamespacedName := "frontend-service1" |};
   fst <$> EnrichMetricFamilies lineEncoder plainQuote
             {| families := families storeA; nm := o.1 |})
  = [ storeA' ].
Proof. vm_compute. reflexivity. Qed.

Example handler_ok_run :
  Sent <$> Handler lineEncoder plainQuote parserA noError noError (upstream 200)
             cacheA optsA newResponseWriter scrape
  = [ Some (200%Z, {[ "Content-Type" := "text/plain; version=0.0.4" ]}) ].
Proof. vm_compute. reflexivity. Qed.

Example handler_bad_upstream_run :
  (λ w, (fst <$> Sent w, Body w)) <$>
    Handler lineEncoder plainQuote parserA noError noError (upstream 503)
      cacheA optsA newResponseWriter scrape
  = [ (Some 500%Z,
       "failed to fetch/process metrics: fetch error: bad status code: 503, body: container_cpu_usage 1.0"
         +:+ newline) ].
Proof. vm_compute. reflexivity. Qed.

Example reconcile_team_run :
  Reconcile teamNamespace cacheNs1 {| NamespacedName := "ns1" |} =
    [ ({| Namespaces := {[ "ns1" := {[ "team" := "backend" ]} ]} |}, (emptyResult, None));
      ({| Namespaces := {[ "ns1" := {[ "team" := "backend" ]} ]} |}, (emptyResult, None)) ].
Proof. vm_compute. reflexivity. Qed.

Example reconcile_bare_run :
  Reconcile bareNamespace cacheNs1 {| NamespacedName := "ns1" |} =
    [ (cacheNs1, (emptyResult, None)) ].
Proof. reflexivity. Qed.

(** ** Where the statements of the specification fail *)

(** C1 as stated fails: the sample of [storeE] carries [namespace] with the
    empty value, the cache has an entry under the empty name with
    [team = frontend], the sample has no [team] label, and the call leaves the
    sample without it. *)
Lemma empty_namespace_key_not_applied :
  ¬ (∀ o, o ∈ EnrichMetricFamilies lineEncoder plainQuote storeE →
       ∀ fk mf i m ns extra,
         families storeE !! fk = Some mf → mfMetric mf !! i = Some m →
         {| Name := "namespace"; Value := ns |} ∈ Label m →
         Namespaces (nm storeE) !! ns = Some extra →
         ∃ mf' m', families o.1 !! fk = Some mf' ∧ mfMetric mf' !! i = Some m' ∧
           ∀ k v, extra !! k = Some v → hasLabel (Label m) k = false →
                  {| Name := k; Value := v |} ∈ Label m').
Proof.
  intros H. destruct (EnrichMetricFamilies_total lineEncoder plainQuote storeE) as [o Ho].
  destruct (H o Ho "up" familyE 0%nat sampleE "" {[ "team" := "frontend" ]})
    as (mf' & m' & Hfk & Hi & Hteam); [done | done | by left | done |].
  assert (o.1 = storeE) as Hst.
  { apply (list_elem_of_fmap_2 fst) in Ho. rewrite emptyNamespace_run in Ho.
    by apply list_elem_of_singleton in Ho. }
  rewrite Hst in Hfk. injection Hfk as <-. injection Hi as <-.
  specialize (Hteam "team" "frontend" eq_refl eq_refl).
  apply list_elem_of_singleton in Hteam. discriminate.
Qed.

(** C3 as stated fails: with an empty cache and a family without samples
    every outcome of the call carries an error, that of the encoder. *)
Lemma empty_cache_encoder_error :
  ¬ (Namespaces (nm storeNone) = ∅ →
     ∀ o, o ∈ EnrichMetricFamilies lineEncoder plainQuote storeNone →
          o.1 = storeNone ∧ o.2.2 = None).
Proof.
  intros H. destruct (EnrichMetricFamilies_total lineEncoder plainQuote storeNone) as [o Ho].
  destruct (H eq_refl o Ho) as [_ Hnone].
  apply (list_elem_of_fmap_2 (λ o, bool_decide (o.2.2 = None))) in Ho.
  rewrite storeNone_run in Ho. apply list_elem_of_singleton in Ho.
  rewrite bool_decide_eq_false in Ho. done.
Qed.

(** C4 as stated fails: on the two families [a] and [b] a first call can
    return the families in one order and a second call on the same
    collection in the other, so that the two texts differ. *)
Lemma second_call_text_differs :
  ¬ (∀ o1 o2, o1 ∈ EnrichMetricFamilies lineEncoder plainQuote storeAB →
              o2 ∈ EnrichMetricFamilies lineEncoder plainQuote o1.1 →
              o2.2 = o1.2).
Proof.
  intros H.
  specialize (H (storeAB, encodeLoop lineEncoder plainQuote
                            [("a", familyOf "a"); ("b", familyOf "b")] "")
                (storeAB, encodeLoop lineEncoder plainQuote
                            [("b", familyOf "b"); ("a", familyOf "a")] "")).
  assert (∀ o, bool_decide (o ∈ EnrichMetricFamilies lineEncoder plainQuote storeAB) = true →
               o ∈ EnrichMetricFamilies lineEncoder plainQuote storeAB) as Hin
    by (intros o; apply bool_decide_eq_true_1).
  assert ((storeAB, encodeLoop lineEncoder plainQuote
                      [("b", familyOf "b"); ("a", familyOf "a")] "").2
          = (storeAB, encodeLoop lineEncoder plainQuote
                        [("a", familyOf "a"); ("b", familyOf "b")] "").2) as Heq.
  { apply H; apply Hin; vm_compute; reflexivity. }
  vm_compute in Heq. discriminate Heq.
Qed.

(** C5 as stated fails: on the model with the two families [a] and [b] the
    encoding step has two results that differ. *)
Lemma encode_order_differs :
  ¬ (∀ r1 r2, r1 ∈ encodeFamilies lineEncoder plainQuote famsAB →
              r2 ∈ encodeFamilies lineEncoder plainQuote famsAB → r1 = r2).
Proof.
  intros H.
  specialize (H (encodeLoop lineEncoder plainQuote [("a", familyOf "a"); ("b", familyOf "b")] "")
                (encodeLoop lineEncoder plainQuote [("b", familyOf "b"); ("a", familyOf "a")] "")).
  assert (∀ order, bool_decide (order ≡ₚ map_to_list famsAB) = true →
            encodeLoop lineEncoder plainQuote order "" ∈
              encodeFamilies lineEncoder plainQuote famsAB) as Hin.
  { intros order Ho%bool_decide_eq_true_1. apply encodeFamilies_elem_of. eauto. }
  assert (encodeLoop lineEncoder plainQuote [("a", familyOf "a"); ("b", familyOf "b")] ""
            = encodeLoop lineEncoder plainQuote [("b", familyOf "b"); ("a", familyOf "a")] "")
    as Heq by (apply H; apply Hin; vm_compute; reflexivity).
  vm_compute in Heq. discriminate Heq.
Qed.

(** C6 as stated fails: after the call on Scenario A the collection that was
    passed in carries the [team] label. *)
Lemma enrich_changes_input :
  ¬ (∀ o, o ∈ EnrichMetricFamilies lineEncoder plainQuote storeA →
          nm o.1 = nm storeA ∧ families o.1 = families storeA).
Proof.
  intros H. destruct (EnrichMetricFamilies_total lineEncoder plainQuote storeA) as [o Ho].
  destruct (H o Ho) as [_ Hfams].
  apply (list_elem_of_fmap_2 fst) in Ho. rewrite scenarioA_store in Ho.
  apply list_elem_of_singleton in Ho. rewrite Ho in Hfams.
  apply (f_equal (λ fams, fams !! "container_cpu_usage")) in Hfams.
  vm_compute in Hfams. discriminate Hfams.
Qed.

(** C7 as stated fails: [ns1] is read, with no labels at all, and the cache
    keeps the labels it had for [ns1] instead of the (empty) set read. *)
Lemma reconcile_bare_namespace_keeps_entry :
  ¬ (∀ o, o ∈ Reconcile bareNamespace cacheNs1 {| NamespacedName := "ns1" |} →
          Namespaces o.1 !! "ns1" = Some (delete LabelMetadataName ∅)).
Proof.
  intros H. specialize (H (cacheNs1, (emptyResult, None))).
  rewrite reconcile_bare_run in H. specialize (H ltac:(left)).
  apply (f_equal (λ o, o ≫= (.!! "team"))) in H. vm_compute in H. discriminate H.
Qed.

(** ** The theorems at concrete inputs *)

Lemma scenarioA_gains_team :
  (∃ o, o ∈ EnrichMetricFamilies lineEncoder plainQuote storeA) ∧
  ∀ o, o ∈ EnrichMetricFamilies lineEncoder plainQuote storeA →
    ∃ mf' m', families o.1 !! "container_cpu_usage" = Some mf' ∧
      mfMetric mf' !! 0%nat = Some m' ∧
      ∀ k v, ({[ "team" := "frontend" ]} : gmap string string) !! k = Some v →
             hasLabel (Label sampleA) k = false →
             {| Name := k; Value := v |} ∈ Label m'.
Proof.
  apply (enrich_adds_cached_labels lineEncoder plainQuote storeA
           "container_cpu_usage" familyA 0%nat sampleA).
  - reflexivity.
  - reflexivity.
  - vm_compute. discriminate.
  - vm_compute. reflexivity.
Defined.

Lemma scenarioA_labels_kept :
  (∃ o, o ∈ EnrichMetricFamilies lineEncoder plainQuote storeA) ∧
  ∀ o, o ∈ EnrichMetricFamilies lineEncoder plainQuote storeA →
    ∃ mf' m' more, families o.1 !! "container_cpu_usage" = Some mf' ∧
      mfMetric mf' !! 0%nat = Some m' ∧
      Label m' = Label sampleA ++ more ∧
      (∀ j lbl, Label sampleA !! j = Some lbl → Label m' !! j = Some lbl) ∧
      (∀ lbl, lbl ∈ more → hasLabel (Label sampleA) (Name lbl) = false) ∧
      NoDup (Name <$> more) ∧
      (NoDup (Name <$> Label sampleA) → NoDup (Name <$> Label m')).
Proof.
  apply (enrich_keeps_labels lineEncoder plainQuote storeA
           "container_cpu_usage" familyA 0%nat sampleA).
  - reflexivity.
  - reflexivity.
Defined.

Lemma storeE_sample_unchanged :
  (∃ o, o ∈ EnrichMetricFamilies lineEncoder plainQuote storeE) ∧
  ∀ o, o ∈ EnrichMetricFamilies lineEncoder plainQuote storeE →
    ∃ mf', families o.1 !! "up" = Some mf' ∧ mfMetric mf' !! 0%nat = Some sampleE.
Proof.
  apply (enrich_skips_empty_namespace lineEncoder plainQuote storeE "up" familyE 0%nat sampleE).
  - reflexivity.
  - reflexivity.
  - reflexivity.
  - reflexivity.
Defined.

Lemma ns1_entry_replaced :
  (∃ o, o ∈ Reconcile teamNamespace cacheNs1 {| NamespacedName := "ns1" |}) ∧
  ∀ o, o ∈ Reconcile teamNamespace cacheNs1 {| NamespacedName := "ns1" |} →
    o.2 = (emptyResult, None) ∧
    (Labels ns1Team ≠ ∅ →
       Namespaces o.1 =
         <[nsName ns1Team := delete LabelMetadataName (Labels ns1Team)]> (Namespaces cacheNs1) ∧
       Namespaces o.1 !! nsName ns1Team = Some (delete LabelMetadataName (Labels ns1Team)) ∧
       ∀ other, other ≠ nsName ns1Team →
                Namespaces o.1 !! other = Namespaces cacheNs1 !! other) ∧
    (Labels ns1Team = ∅ → o.1 = cacheNs1).
Proof.
  apply (reconcile_replaces_entry teamNamespace cacheNs1 {| NamespacedName := "ns1" |} ns1Team).
  reflexivity.
Defined.

Lemma ns1_not_found_noop :
  Reconcile goneNamespace cacheNs1 {| NamespacedName := "ns1" |}
    = [ (cacheNs1, (emptyResult, None)) ] ∧
  ∀ o, o ∈ Reconcile goneNamespace cacheNs1 {| NamespacedName := "ns1" |} →
    o.2.2 = None ∧ Requeue o.2.1 = false ∧ RequeueAfter o.2.1 = 0%Z ∧
    o.1 = cacheNs1 ∧
    Namespaces o.1 !! "ns1" = Namespaces cacheNs1 !! "ns1".
Proof.
  apply (reconcile_not_found goneNamespace cacheNs1 {| NamespacedName := "ns1" |}
           "namespaces not found").
  reflexivity.
Defined.

(** * Further properties *)

(** ** Labels *)

(** X1.  [hasLabel] answers true exactly when some label of the list has
    the name asked for, and false exactly when none has. *)
Theorem hasLabel_iff labels name :
  (hasLabel labels name = true ↔ ∃ lbl, lbl ∈ labels ∧ Name lbl = name) ∧
  (hasLabel labels name = false ↔ ∀ lbl, lbl ∈ labels → Name lbl ≠ name).
Proof.
  split.
  - rewrite hasLabel_true, list_elem_of_fmap. split.
    + intros (lbl & -> & Hin). by exists lbl.
    + intros (lbl & Hin & <-). by exists lbl.
  - rewrite hasLabel_false, list_elem_of_fmap. split.
    + intros Hnone lbl Hin Heq. apply Hnone. by exists lbl.
    + intros Hall (lbl & -> & Hin). by apply (Hall lbl).
Qed.

(** X2.  The namespace value a sample is enriched by is that of its first
    label named [namespace]: labels after it, of that name or not, do not
    count. *)
Theorem nsValueOf_first l1 lbl l2 :
  hasLabel l1 "namespace" = false → Name lbl = "namespace" →
  nsValueOf (l1 ++ lbl :: l2) = Value lbl ∧
  ∀ l2', nsValueOf (l1 ++ lbl :: l2') = nsValueOf (l1 ++ lbl :: l2).
Proof.
  intros Hl1 Hlbl.
  assert (∀ l, nsValueOf (l1 ++ lbl :: l) = Value lbl) as Hfirst.
  { intros l. induction l1 as [|x l1 IH]; simpl in *.
    - by rewrite decide_True.
    - case_decide; [done | by apply IH]. }
  split; [done|]. intros l2'. by rewrite !Hfirst.
Qed.

(** ** What EnrichMetricFamilies adds and returns *)

Lemma encodeLoop_accepts Encode Quote order sb :
  (encodeLoop Encode Quote order sb).2 = None →
  ∀ kmf, kmf ∈ order → (Encode kmf.2).2 = None.
Proof.
  revert sb. induction order as [|[k mf] rest IH]; intros sb Hres kmf Hin.
  - by apply elem_of_nil in Hin.
  - simpl in Hres. destruct (Encode mf) as [out [e|]] eqn:Hmf; [done|].
    apply elem_of_cons in Hin as [->|Hin]; [simpl; by rewrite Hmf | by eapply IH].
Qed.

Section Enrich_more.
Variable Encode : MetricFamily → string * option error.
Variable Quote : string → string.

(** X3.  The labels a call appends to a sample are exactly the pairs of the
    cache entry under the sample's non-empty namespace value whose key the
    sample does not carry: nothing comes from another namespace's entry, and
    nothing at all when there is no such entry. *)
Theorem enrich_adds_exactly st fk mf i m :
  families st !! fk = Some mf → mfMetric mf !! i = Some m →
  (∃ o, o ∈ EnrichMetricFamilies Encode Quote st) ∧
  ∀ o, o ∈ EnrichMetricFamilies Encode Quote st →
    ∃ mf' m' more, families o.1 !! fk = Some mf' ∧ mfMetric mf' !! i = Some m' ∧
      Label m' = Label m ++ more ∧
      ∀ k v, {| Name := k; Value := v |} ∈ more ↔
        nsValueOf (Label m) ≠ "" ∧ hasLabel (Label m) k = false ∧
        ∃ extra, Namespaces (nm st) !! nsValueOf (Label m) = Some extra ∧
                 extra !! k = Some v.
Proof.
  intros Hfk Hi. split; [apply EnrichMetricFamilies_total|]. intros o Ho.
  destruct (EnrichMetricFamilies_sample _ _ _ _ _ _ _ _ Ho Hfk Hi)
    as (mf' & m' & Hfk' & Hi' & _ & _ & _ & Hl).
  exists mf', m'. destruct (cachedLabels (nm st) (Label m)) as [extra|] eqn:Hc.
  - destruct Hl as (order & Hperm & Hl). exists (added (Label m) order).
    apply cachedLabels_Some in Hc as [Hns Hextra]. split_and!; [done..|].
    intros k v. split.
    + intros Hin. split_and!; [done | by apply added_fresh in Hin |].
      exists extra. split; [done|]. apply added_from in Hin. simpl in Hin.
      rewrite Hperm in Hin. by apply elem_of_map_to_list.
    + intros (_ & Habs & extra' & Hextra' & Hk).
      assert (extra' = extra) as -> by congruence.
      apply added_complete; [|done]. rewrite Hperm. by apply elem_of_map_to_list.
  - exists []. rewrite app_nil_r. split_and!; [done..|]. intros k v. split.
    + by intros ?%elem_of_nil.
    + intros (Hns & _ & extra & Hextra & _). unfold cachedLabels in Hc.
      rewrite decide_False in Hc by done. congruence.
Qed.


(** X5.  What a call returns is one of two things: the blocks the encoder
    wrote for the families of the enriched collection, in some order of
    these families, all of them accepted by the encoder, and no error; or
    the empty text and the error of the encoder on one family of the
    enriched collection, wrapped with that family's name. *)
Theorem enrich_returns st :
  (∃ o, o ∈ EnrichMetricFamilies Encode Quote st) ∧
  ∀ o, o ∈ EnrichMetricFamilies Encode Quote st →
    ∃ order, order ≡ₚ map_to_list (families o.1) ∧
      (((∀ k mf, families o.1 !! k = Some mf → (Encode mf).2 = None) ∧
        o.2 = (blocks Encode order, None))
       ∨
       (∃ k mf e0, families o.1 !! k = Some mf ∧ (Encode mf).2 = Some e0 ∧
          o.2 = ("", Some (Errorf ("failed to encode metric family "
                                    +:+ Quote (mfName mf) +:+ ": ") e0)))).
Proof.
  split; [apply EnrichMetricFamilies_total|].
  intros o (_ & _ & Hres)%EnrichMetricFamilies_elem_of.
  apply encodeFamilies_elem_of in Hres as (order & Hperm & Hres).
  exists order. split; [done|].
  destruct (encodeLoop Encode Quote order "") as [text [e|]] eqn:Hloop.
  - right. pose proof (encodeLoop_error Encode Quote order "" e) as Htext.
    pose proof (encodeLoop_error_source Encode Quote order "" e) as Hsrc.
    rewrite Hloop in Htext, Hsrc. simpl in *.
    destruct (Hsrc eq_refl) as (k & mf & e0 & Hin & He0 & ->).
    exists k, mf, e0. rewrite Hperm in Hin. apply elem_of_map_to_list in Hin.
    split_and!; [done..|]. rewrite Hres. f_equal. by apply Htext.
  - left. pose proof (encodeLoop_accepts Encode Quote order "") as Hacc.
    rewrite Hloop in Hacc. specialize (Hacc eq_refl). split.
    + intros k mf Hk. apply (Hacc (k, mf)). rewrite Hperm. by apply elem_of_map_to_list.
    + rewrite Hres, <-Hloop. by rewrite encodeLoop_ok.
Qed.

(** X6.  On a collection without families the call returns the empty text
    and no error, and consults neither the cache nor the encoder. *)
Theorem enrich_empty_collection c :
  EnrichMetricFamilies Encode Quote {| families := ∅; nm := c |} =
    [ ({| families := ∅; nm := c |}, ("", None)) ].
Proof.
  unfold EnrichMetricFamilies, encodeFamilies, rangeMap. simpl.
  rewrite map_to_list_empty. reflexivity.
Qed.

End Enrich_more.

(** ** fetchMetrics and the pipeline *)

Section Fetch_more.
Variable Encode : MetricFamily → string * option error.
Variable Quote : string → string.
Variable TextToMetricFamilies : string → gmap string MetricFamily * option error.
Variable TransportFor : RestConfig → option error.
Variable NewRequest : string → option error.
Variable Do : RestConfig → bool → string → HttpResponse + error.

(** X7.  Called as [FetchAndProcessMetrics] calls it, with the
    configuration's own [Insecure] as the flag, [fetchMetrics] returns
    without error exactly when the transport and the request for the URL
    formatted from the options could be made, the upstream answered that URL
    with status 200 and its body was read to the end; what it returns then
    is that body. *)
Theorem fetchMetrics_ok cfg otps raw :
  fetchMetrics TransportFor NewRequest Do cfg otps (Insecure cfg) = (raw, None) ↔
    TransportFor cfg = None ∧ NewRequest (requestURL otps) = None ∧
    ∃ resp, Do cfg (Insecure cfg) (requestURL otps) = inl resp ∧
            StatusCode resp = 200%Z ∧ ReadAll resp = (raw, None).
Proof.
  unfold fetchMetrics. fold (requestURL otps).
  destruct (TransportFor cfg) as [e|].
  { split; [done|]. by intros ([=] & _). }
  destruct (NewRequest (requestURL otps)) as [e|].
  { split; [done|]. by intros (_ & [=] & _). }
  destruct (Do cfg (Insecure cfg) (requestURL otps)) as [resp|e].
  2: { split; [done|]. by intros (_ & _ & resp & [=] & _). }
  unfold StatusOK. case_decide as Hcode.
  - split; [done|]. intros (_ & _ & resp' & [= <-] & Hc & _). done.
  - split.
    + intros Hread. split_and!; [done..|]. by exists resp.
    + by intros (_ & _ & resp' & [= <-] & _ & Hread).
Qed.

(** X8.  An error of [fetchMetrics] is one of five: the transport could
    not be made, the request could not be made, the request failed, the
    upstream answered with a status other than 200 (the message carries
    the status and whatever could be read of the body), or the body of a
    200 answer could not be read to the end.  Only in the last case does
    data come with the error. *)
Theorem fetchMetrics_errors cfg otps skip data e :
  fetchMetrics TransportFor NewRequest Do cfg otps skip = (data, Some e) →
  (∃ e0, TransportFor cfg = Some e0 ∧ data = "" ∧
         e = "failed to create transport from rest.Config: " +:+ e0) ∨
  (∃ e0, TransportFor cfg = None ∧ NewRequest (requestURL otps) = Some e0 ∧
         data = "" ∧ e = "new request: " +:+ e0) ∨
  (∃ e0, TransportFor cfg = None ∧ NewRequest (requestURL otps) = None ∧
         Do cfg skip (requestURL otps) = inr e0 ∧
         data = "" ∧ e = "do request: " +:+ e0) ∨
  (∃ resp, TransportFor cfg = None ∧ NewRequest (requestURL otps) = None ∧
         Do cfg skip (requestURL otps) = inl resp ∧ StatusCode resp ≠ 200%Z ∧
         data = "" ∧
         e = "bad status code: " +:+ pretty (StatusCode resp) +:+ ", body: "
               +:+ (ReadAll resp).1) ∨
  (∃ resp, TransportFor cfg = None ∧ NewRequest (requestURL otps) = None ∧
         Do cfg skip (requestURL otps) = inl resp ∧ StatusCode resp = 200%Z ∧
         ReadAll resp = (data, Some e)).
Proof.
  unfold fetchMetrics. fold (requestURL otps).
  destruct (TransportFor cfg) as [e0|].
  { intros [= <- <-]. left. by exists e0. }
  destruct (NewRequest (requestURL otps)) as [e0|].
  { intros [= <- <-]. right; left. by exists e0. }
  destruct (Do cfg skip (requestURL otps)) as [resp|e0].
  2: { intros [= <- <-]. do 2 right; left. by exists e0. }
  unfold StatusOK. case_decide as Hcode.
  - intros [= <- <-]. do 3 right; left. by exists resp.
  - intros Hread. do 4 right. by exists resp.
Qed.

Lemma FetchAndProcessMetrics_elem_of c opts out :
  out ∈ FetchAndProcessMetrics Encode Quote TextToMetricFamilies TransportFor NewRequest Do
          c opts ↔
  let fetched := fetchMetrics TransportFor NewRequest Do (RestConfigOf opts) opts
                   (Insecure (RestConfigOf opts)) in
  match fetched.2 with
  | Some e => out = ("", Some (Errorf "fetch error: " e))
  | None =>
      match (TextToMetricFamilies fetched.1).2 with
      | Some e => out = ("", Some (Errorf "failed to parse metrics: " e))
      | None =>
          ∃ o, o ∈ EnrichMetricFamilies Encode Quote
                     {| families := (TextToMetricFamilies fetched.1).1; nm := c |} ∧
               out = match o.2.2 with
                     | Some e => ("", Some (Errorf "failed to enrich metrics: " e))
                     | None => (o.2.1, None)
                     end
      end
  end.
Proof.
  unfold FetchAndProcessMetrics. simpl.
  destruct (fetchMetrics _ _ _ _ _ _) as [raw [e|]]; simpl.
  { apply list_elem_of_ret. }
  destruct (TextToMetricFamilies raw) as [fams [e|]]; simpl.
  { apply list_elem_of_ret. }
  rewrite list_elem_of_bind. split.
  - intros (o & Hout & Ho). exists o. split; [done|].
    destruct o as [st' [text [e|]]]; simpl in *; by apply list_elem_of_ret in Hout.
  - intros (o & Ho & ->). exists o. split; [|done].
    destruct o as [st' [text [e|]]]; simpl; by apply list_elem_of_ret.
Qed.

Lemma FetchAndProcessMetrics_total c opts :
  ∃ out, out ∈ FetchAndProcessMetrics Encode Quote TextToMetricFamilies
                 TransportFor NewRequest Do c opts.
Proof.
  destruct (fetchMetrics TransportFor NewRequest Do (RestConfigOf opts) opts
              (Insecure (RestConfigOf opts))) as [raw [e|]] eqn:Hf.
  { eexists. apply FetchAndProcessMetrics_elem_of. simpl. by rewrite Hf. }
  destruct (TextToMetricFamilies raw) as [fams [e|]] eqn:Hp.
  { eexists. apply FetchAndProcessMetrics_elem_of. simpl. rewrite Hf. simpl. by rewrite Hp. }
  destruct (EnrichMetricFamilies_total Encode Quote {| families := fams; nm := c |}) as [o Ho].
  eexists. apply FetchAndProcessMetrics_elem_of. simpl. rewrite Hf. simpl. rewrite Hp. simpl.
  eauto.
Qed.

(** X9.  [FetchAndProcessMetrics] always returns and never hands back
    data together with an error, also when the body of the upstream's answer
    was read in part only.  Its error tells the stage that failed: it is the
    error of [fetchMetrics] after [fetch error: ], or, the fetch done, the
    parser's error on the body fetched after [failed to parse metrics: ],
    or, fetch and parse done, the error of [EnrichMetricFamilies] on the
    families parsed after [failed to enrich metrics: ].  Without an error
    the data is the text [EnrichMetricFamilies] returned for the families
    parsed from the body fetched. *)
Theorem FetchAndProcessMetrics_returns c opts :
  (∃ out, out ∈ FetchAndProcessMetrics Encode Quote TextToMetricFamilies
                  TransportFor NewRequest Do c opts) ∧
  ∀ out, out ∈ FetchAndProcessMetrics Encode Quote TextToMetricFamilies
                 TransportFor NewRequest Do c opts →
    (∀ e, out.2 = Some e →
       out.1 = "" ∧
       ((∃ raw e0,
           fetchMetrics TransportFor NewRequest Do (RestConfigOf opts) opts
             (Insecure (RestConfigOf opts)) = (raw, Some e0) ∧
           e = "fetch error: " +:+ e0) ∨
        (∃ raw fams e0,
           fetchMetrics TransportFor NewRequest Do (RestConfigOf opts) opts
             (Insecure (RestConfigOf opts)) = (raw, None) ∧
           TextToMetricFamilies raw = (fams, Some e0) ∧
           e = "failed to parse metrics: " +:+ e0) ∨
        (∃ raw fams o e0,
           fetchMetrics TransportFor NewRequest Do (RestConfigOf opts) opts
             (Insecure (RestConfigOf opts)) = (raw, None) ∧
           TextToMetricFamilies raw = (fams, None) ∧
           o ∈ EnrichMetricFamilies Encode Quote {| families := fams; nm := c |} ∧
           o.2.2 = Some e0 ∧
           e = "failed to enrich metrics: " +:+ e0))) ∧
    (out.2 = None →
       ∃ raw fams o,
         fetchMetrics TransportFor NewRequest Do (RestConfigOf opts) opts
           (Insecure (RestConfigOf opts)) = (raw, None) ∧
         TextToMetricFamilies raw = (fams, None) ∧
         o ∈ EnrichMetricFamilies Encode Quote {| families := fams; nm := c |} ∧
         o.2 = (out.1, None)).
Proof.
  split; [apply FetchAndProcessMetrics_total|].
  intros out Hout%FetchAndProcessMetrics_elem_of. simpl in Hout.
  destruct (fetchMetrics _ _ _ _ _ _) as [raw [e0|]] eqn:Hf; simpl in Hout.
  { subst out. simpl. split; [|done]. intros e [= <-]. split; [done|].
    left. by exists raw, e0. }
  destruct (TextToMetricFamilies raw) as [fams [e0|]] eqn:Hp; simpl in Hout.
  { subst out. simpl. split; [|done]. intros e [= <-]. split; [done|].
    right; left. by exists raw, fams, e0. }
  destruct Hout as (o & Ho & ->). destruct o as [st' [text [e1|]]] eqn:Heqo; simpl.
  - split; [|done]. intros e [= <-]. split; [done|].
    right; right. exists raw, fams, (st', (text, Some e1)), e1. by split_and!.
  - split; [done|]. intros _. exists raw, fams, (st', (text, None)). by split_and!.
Qed.

End Fetch_more.

(** ** The server runnable and the controller options *)

(** X10.  The server listens on the port given and serves two paths.  Without
    an API server, [/metrics] and [/metrics/cadvisor] fetch the same paths
    from the node, at the node port; with an API server they fetch the
    node's proxy subresource from the API server's host, still at the node
    port. *)
Theorem NewServerRunnable_targets cfg port apiserver node nport :
  Addr (httpServer (NewServerRunnable cfg port apiserver node nport)) = ":" +:+ port ∧
  (apiserver = "" →
     requestURL <$> Mux (httpServer (NewServerRunnable cfg port apiserver node nport)) =
       {[ "/metrics/cadvisor" := "https://" +:+ node +:+ ":" +:+ nport +:+ "/metrics/cadvisor";
          "/metrics" := "https://" +:+ node +:+ ":" +:+ nport +:+ "/metrics" ]}) ∧
  (apiserver ≠ "" →
     requestURL <$> Mux (httpServer (NewServerRunnable cfg port apiserver node nport)) =
       {[ "/metrics/cadvisor" :=
            "https://" +:+ apiserver +:+ ":" +:+ nport +:+ "/api/v1/nodes/" +:+ node
              +:+ "/proxy/metrics/cadvisor";
          "/metrics" :=
            "https://" +:+ apiserver +:+ ":" +:+ nport +:+ "/api/v1/nodes/" +:+ node
              +:+ "/proxy/metrics" ]}).
Proof.
  unfold NewServerRunnable. cbn [httpServer Addr Mux]. split_and!; [done| |].
  - intros ->. rewrite !fmap_insert, fmap_empty, insert_empty. unfold requestURL.
    cbn [KubeApiserver NodeNameOrIP NodePort NodePath].
    rewrite !(decide_False (P := "" ≠ "")) by (by intros H; apply H). done.
  - intros Hapi. rewrite !fmap_insert, fmap_empty, insert_empty. unfold requestURL.
    cbn [KubeApiserver NodeNameOrIP NodePort NodePath].
    rewrite !(decide_True (P := apiserver ≠ "")) by done.
    by rewrite !append_assoc.
Qed.

Lemma controllerOptionsSeq_initialised calls g o :
  optionsInit g = true → defaultOptions g = Some o →
  controllerOptionsSeq calls g = replicate (length calls) (Some o).
Proof.
  intros Hinit Hdef. induction calls as [|[a b] rest IH]; [done|].
  simpl. unfold controllerOptions. rewrite Hinit, Hdef. by rewrite IH.
Qed.

(** X11.  Of any number of calls of [controllerOptions] the first decides:
    it returns the options made of its own arguments and the 30 second to
    5 minute rate limiter, and every later call returns these same options
    whatever its arguments are; no call dereferences nil. *)
Theorem controllerOptions_first_call_wins maxConcurrency cacheSyncTimeout rest :
  controllerOptionsSeq ((maxConcurrency, cacheSyncTimeout) :: rest) initialGlobals =
    replicate (S (length rest))
      (Some {| RateLimiter := {| baseDelay := 30000000000; maxDelay := 300000000000 |};
               CacheSyncTimeout := cacheSyncTimeout;
               MaxConcurrentReconciles := maxConcurrency |}).
Proof.
  cbn [controllerOptionsSeq]. unfold controllerOptions at 1. cbn [optionsInit initialGlobals].
  cbn [defaultOptions]. rewrite replicate_S. f_equal.
  by apply controllerOptionsSeq_initialised.
Qed.

(** ** More on Reconcile *)

Lemma Reconcile_elem_of Get c req o :
  o ∈ Reconcile Get c req ↔
    match Get (NamespacedName req) with
    | inr err => o = (c, (emptyResult, IgnoreNotFound err))
    | inl ns =>
        if decide (Labels ns = ∅) then o = (c, (emptyResult, None))
        else o = ({| Namespaces :=
                       <[nsName ns := delete LabelMetadataName (Labels ns)]> (Namespaces c) |},
                  (emptyResult, None))
    end.
Proof.
  unfold Reconcile. destruct (Get (NamespacedName req)) as [ns|err].
  2: { apply list_elem_of_ret. }
  destruct (decide (size (Labels ns) = 0%nat)) as [Hsz|Hsz].
  - apply map_size_empty_iff in Hsz. rewrite decide_True by done. apply list_elem_of_ret.
  - apply map_size_non_empty_iff in Hsz. rewrite decide_False by done.
    rewrite list_elem_of_bind. split.
    + intros (order & ->%list_elem_of_ret & Ho). by rewrite (range_stripName _ _ Ho).
    + intros ->. exists (map_to_list (Labels ns)). split; [|apply rangeMap_total].
      apply list_elem_of_ret. by rewrite (range_stripName _ _ (rangeMap_total _)).
Qed.

Lemma Reconcile_total Get c req : ∃ o, o ∈ Reconcile Get c req.
Proof.
  destruct (Get (NamespacedName req)) as [ns|err] eqn:Hget.
  - destruct (decide (Labels ns = ∅)) as [He|He]; eexists;
      apply Reconcile_elem_of; rewrite Hget; [by rewrite decide_True | by rewrite decide_False].
  - eexists. apply Reconcile_elem_of. by rewrite Hget.
Qed.

Section Controller_more.
Variable Get : string → Namespace + apiError.

(** X12.  A reconcile returns an error exactly when the read failed with an
    error other than not-found, and then it is that error; it never asks for
    a requeue by its result; and whenever the read failed the cache is as it
    was. *)
Theorem reconcile_errors c req :
  (∃ o, o ∈ Reconcile Get c req) ∧
  ∀ o, o ∈ Reconcile Get c req →
    o.2.1 = emptyResult ∧
    (∀ e, o.2.2 = Some e ↔
          Get (NamespacedName req) = inr e ∧ ∃ msg, e = OtherError msg) ∧
    (∀ err, Get (NamespacedName req) = inr err → o.1 = c).
Proof.
  split; [apply Reconcile_total|]. intros o Ho%Reconcile_elem_of.
  destruct (Get (NamespacedName req)) as [ns|err].
  - assert (o.2 = (emptyResult, None)) as Hres by (case_decide; by subst o).
    rewrite Hres. simpl. split_and!; [done| |done]. intros e. split; [done|].
    by intros [[=] _].
  - subst o. simpl. split_and!; [done| |done]. intros e. destruct err as [msg|msg]; simpl.
    + split; [done|]. by intros [[= <-] [msg' [=]]].
    + split; [intros [= <-]; eauto | by intros [[= <-] _]].
Qed.

(** X13.  A reconcile never removes an entry of the cache and adds at most
    one, under the name of the namespace it read; every entry under another
    name is as it was. *)
Theorem reconcile_never_evicts c req :
  (∃ o, o ∈ Reconcile Get c req) ∧
  ∀ o, o ∈ Reconcile Get c req →
    dom (Namespaces c) ⊆ dom (Namespaces o.1) ∧
    (size (Namespaces o.1) ≤ S (size (Namespaces c)))%nat ∧
    ∀ name, Namespaces o.1 !! name ≠ Namespaces c !! name →
      ∃ ns, Get (NamespacedName req) = inl ns ∧ name = nsName ns ∧ Labels ns ≠ ∅.
Proof.
  split; [apply Reconcile_total|]. intros o Ho%Reconcile_elem_of.
  destruct (Get (NamespacedName req)) as [ns|err].
  2: { subst o. simpl. split_and!; [done | lia | done]. }
  case_decide as Hlabels; subst o; simpl.
  { split_and!; [done | lia | done]. }
  split_and!.
  - rewrite dom_insert_L. set_solver.
  - destruct (Namespaces c !! nsName ns) eqn:Hold.
    + rewrite map_size_insert_Some by eauto. lia.
    + rewrite map_size_insert_None by done. lia.
  - intros name Hne. exists ns. split_and!; [done| |done].
    destruct (decide (name = nsName ns)) as [|Hname]; [done|].
    by rewrite lookup_insert_ne in Hne.
Qed.

(** X14.  Reading a namespace twice in a row, the second read decides: when
    it has labels, the cache after the two reconciles is the cache after a
    reconcile of the second read alone, and reconciling the same read again
    changes nothing. *)
Theorem reconcile_last_read_wins Get1 c req1 req2 ns1 ns2 :
  Get1 (NamespacedName req1) = inl ns1 → Get (NamespacedName req2) = inl ns2 →
  nsName ns1 = nsName ns2 → Labels ns2 ≠ ∅ →
  (∃ o1 o2, o1 ∈ Reconcile Get1 c req1 ∧ o2 ∈ Reconcile Get o1.1 req2) ∧
  ∀ o1 o2 o, o1 ∈ Reconcile Get1 c req1 → o2 ∈ Reconcile Get o1.1 req2 →
             o ∈ Reconcile Get c req2 → o2 = o.
Proof.
  intros Hget1 Hget2 Hname Hlabels. split.
  - destruct (Reconcile_total Get1 c req1) as [o1 Ho1].
    destruct (Reconcile_total Get o1.1 req2) as [o2 Ho2]. eauto.
  - intros o1 o2 o Ho1%Reconcile_elem_of Ho2%Reconcile_elem_of Ho%Reconcile_elem_of.
    rewrite Hget1 in Ho1. rewrite Hget2 in Ho2, Ho.
    rewrite decide_False in Ho2, Ho by done. subst o2 o. do 2 f_equal.
    case_decide; subst o1; simpl; [done|]. rewrite Hname. apply insert_insert_eq.
Qed.

End Controller_more.

Lemma reachable_stripped c :
  reachable c →
  ∀ name labels, Namespaces c !! name = Some labels → labels !! LabelMetadataName = None.
Proof.
  induction 1 as [|c Get req o Hc IH Ho]; intros name labels Hlookup.
  - unfold NewNamespaceMetrics in Hlookup. simpl in Hlookup.
    by rewrite lookup_empty in Hlookup.
  - apply Reconcile_elem_of in Ho. destruct (Get (NamespacedName req)) as [ns|err].
    2: { subst o. by eapply IH. }
    case_decide; subst o; simpl in Hlookup; [by eapply IH|].
    apply lookup_insert_Some in Hlookup as [[_ <-]|[_ Hlookup]]; [|by eapply IH].
    apply lookup_delete_eq.
Qed.

(** X15.  No cache the controller can build, starting from the new cache
    and changing it by reconciles only, holds the name-identity label in any
    of its label sets. *)
Theorem reachable_without_name_label c :
  reachable c →
  ∀ name labels, Namespaces c !! name = Some labels →
    labels !! LabelMetadataName = None.
Proof. apply reachable_stripped. Qed.


(** ** A cold cache *)

Lemma enrichedFamilies_cold c fams fams' :
  Namespaces c = ∅ → enrichedFamilies c fams fams' → fams' = fams.
Proof.
  intros Hempty Hrel. apply map_eq. intros k. specialize (Hrel k).
  destruct Hrel as [mf mf' (Hn & Hh & Ht & Hms)|]; [|done]. f_equal.
  apply MetricFamily_eq; [done..|]. symmetry. apply list_eq_Forall2.
  eapply Forall2_impl; [done|]. intros m m' (Hs & Hts & Hl). symmetry.
  apply Metric_eq; [|done..]. unfold cachedLabels in Hl.
  rewrite Hempty, lookup_empty in Hl. by case_decide.
Qed.

Section Cold_cache.
Variable Encode : MetricFamily → string * option error.
Variable Quote : string → string.
Variable TextToMetricFamilies : string → gmap string MetricFamily * option error.
Variable TransportFor : RestConfig → option error.
Variable NewRequest : string → option error.
Variable Do : RestConfig → bool → string → HttpResponse + error.

Lemma Handler_elem_of c opts w r w' :
  w' ∈ Handler Encode Quote TextToMetricFamilies TransportFor NewRequest Do c opts w r ↔
  ∃ out, out ∈ FetchAndProcessMetrics Encode Quote TextToMetricFamilies
                 TransportFor NewRequest Do c opts ∧
         w' = match out.2 with
              | Some err => httpError ("failed to fetch/process metrics: " +:+ err)
                              StatusInternalServerError w
              | None => Write out.1 (HeaderSet "Content-Type" "text/plain; version=0.0.4" w)
              end.
Proof.
  unfold Handler. rewrite list_elem_of_bind. split.
  - intros ([data [e|]] & Hw & Hout); apply list_elem_of_ret in Hw; eauto.
  - intros ([data [e|]] & Hout & ->); eexists; (split; [|done]); by apply list_elem_of_ret.
Qed.

(** X17.  With a cache that is still empty the proxy is transparent: when
    the fetch and the parse succeed and the encoder accepts the families
    parsed, every answer is a 200 in the exposition content type whose body
    is the blocks of exactly the families parsed, in some order of them. *)
Theorem cold_cache_is_transparent c opts r raw fams :
  Namespaces c = ∅ →
  fetchMetrics TransportFor NewRequest Do (RestConfigOf opts) opts
    (Insecure (RestConfigOf opts)) = (raw, None) →
  TextToMetricFamilies raw = (fams, None) →
  (∀ k mf, fams !! k = Some mf → (Encode mf).2 = None) →
  (∃ w', w' ∈ Handler Encode Quote TextToMetricFamilies TransportFor NewRequest Do
                  c opts newResponseWriter r) ∧
  ∀ w', w' ∈ Handler Encode Quote TextToMetricFamilies TransportFor NewRequest Do
               c opts newResponseWriter r →
    Sent w' = Some (200%Z, {[ "Content-Type" := "text/plain; version=0.0.4" ]}) ∧
    ∃ order, order ≡ₚ map_to_list fams ∧ Body w' = blocks Encode order.
Proof.
  intros Hempty Hfetch Hparse Hok. split.
  - destruct (FetchAndProcessMetrics_total Encode Quote TextToMetricFamilies
                TransportFor NewRequest Do c opts) as [out Hout].
    eexists. apply Handler_elem_of. eauto.
  - intros w' (out & Hout%FetchAndProcessMetrics_elem_of & ->)%Handler_elem_of.
    simpl in Hout. rewrite Hfetch in Hout. simpl in Hout. rewrite Hparse in Hout.
    simpl in Hout. destruct Hout as (o & Ho & ->).
    apply EnrichMetricFamilies_elem_of in Ho as (_ & Hrel & Hres). simpl in Hrel.
    apply (enrichedFamilies_cold _ _ _ Hempty) in Hrel. rewrite Hrel in Hres.
    apply encodeFamilies_elem_of in Hres as (order & Hperm & Hres).
    rewrite encodeLoop_ok in Hres.
    2: { intros [k mf] Hin. rewrite Hperm in Hin. apply elem_of_map_to_list in Hin. eauto. }
    rewrite Hres. cbn [fst snd]. rewrite write_fresh. simpl. split; [done|]. by exists order.
Qed.

End Cold_cache.

(** ** The controller and the enrichment together *)

Lemma enriched_ext c c' m m' :
  cachedLabels c (Label m) = cachedLabels c' (Label m) → enriched c m m' → enriched c' m m'.
Proof. unfold enriched. by intros ->. Qed.

Lemma enrichedFamilies_ext c c' fams fams' :
  (∀ k mf m, fams !! k = Some mf → m ∈ mfMetric mf →
             cachedLabels c (Label m) = cachedLabels c' (Label m)) →
  enrichedFamilies c fams fams' → enrichedFamilies c' fams fams'.
Proof.
  intros Hsame Hrel k. specialize (Hrel k). specialize (Hsame k).
  destruct Hrel as [mf mf' (Hn & Hh & Ht & Hms)|]; constructor.
  split_and!; [done..|]. specialize (Hsame mf). clear Hn Hh Ht.
  induction Hms as [|m m' ms ms' Hm Hms IH]; constructor.
  - eapply enriched_ext; [|done]. apply Hsame; [done | left].
  - apply IH. intros m0 Hk Hin. apply Hsame; [done | by right].
Qed.

Section Together.
Variable Encode : MetricFamily → string * option error.
Variable Quote : string → string.

(** X18.  What a scrape can return does not depend on the cache entry of a
    namespace that none of its samples names: setting that entry, as a
    reconcile of that namespace does, leaves the possible results of
    [EnrichMetricFamilies] on the collection as they were. *)
Theorem enrich_ignores_other_namespaces fams c name labels :
  (∀ k mf m, fams !! k = Some mf → m ∈ mfMetric mf → nsValueOf (Label m) ≠ name) →
  ∀ fams' res,
    ({| families := fams'; nm := c |}, res)
      ∈ EnrichMetricFamilies Encode Quote {| families := fams; nm := c |} ↔
    ({| families := fams'; nm := {| Namespaces := <[name := labels]> (Namespaces c) |} |}, res)
      ∈ EnrichMetricFamilies Encode Quote
          {| families := fams;
             nm := {| Namespaces := <[name := labels]> (Namespaces c) |} |}.
Proof.
  intros Hother fams' res. rewrite !EnrichMetricFamilies_elem_of. simpl.
  assert (∀ k mf m, fams !! k = Some mf → m ∈ mfMetric mf →
            cachedLabels c (Label m) =
            cachedLabels {| Namespaces := <[name := labels]> (Namespaces c) |} (Label m))
    as Hsame.
  { intros k mf m Hk Hin. unfold cachedLabels. simpl. case_decide; [done|].
    rewrite lookup_insert_ne; [done|]. intros Heq. by eapply Hother. }
  split; intros (_ & Hrel & Hres); (split_and!; [done| |done]).
  - by eapply enrichedFamilies_ext.
  - eapply enrichedFamilies_ext; [|done]. intros k mf m Hk Hin. symmetry. by eapply Hsame.
Qed.

(** X19.  After a reconcile that read a namespace with labels, a scrape
    appends to a sample of that namespace exactly the labels read, the
    name-identity label and the keys the sample carries left out: what the
    cache held for the namespace before plays no part. *)
Theorem reconcile_then_enrich Get c req ns fams fk mf i m :
  Get (NamespacedName req) = inl ns → Labels ns ≠ ∅ →
  fams !! fk = Some mf → mfMetric mf !! i = Some m →
  nsValueOf (Label m) = nsName ns → nsName ns ≠ "" →
  (∃ r o, r ∈ Reconcile Get c req ∧
          o ∈ EnrichMetricFamilies Encode Quote {| families := fams; nm := r.1 |}) ∧
  ∀ r o, r ∈ Reconcile Get c req →
         o ∈ EnrichMetricFamilies Encode Quote {| families := fams; nm := r.1 |} →
    ∃ mf' m' more, families o.1 !! fk = Some mf' ∧ mfMetric mf' !! i = Some m' ∧
      Label m' = Label m ++ more ∧
      ∀ k v, {| Name := k; Value := v |} ∈ more ↔
        Labels ns !! k = Some v ∧ k ≠ LabelMetadataName ∧ hasLabel (Label m) k = false.
Proof.
  intros Hget Hlabels Hfk Hi Hns Hname. split.
  - destruct (Reconcile_total Get c req) as [r Hr].
    destruct (EnrichMetricFamilies_total Encode Quote {| families := fams; nm := r.1 |})
      as [o Ho]. eauto.
  - intros r o Hr%Reconcile_elem_of Ho. rewrite Hget, decide_False in Hr by done. subst r.
    destruct (EnrichMetricFamilies_sample _ _ _ _ _ _ _ _ Ho Hfk Hi)
      as (mf' & m' & Hfk' & Hi' & _ & _ & _ & Hl).
    exists mf', m'. simpl in Hl. unfold cachedLabels in Hl. simpl in Hl.
    rewrite Hns, decide_False, lookup_insert_eq in Hl by done.
    destruct Hl as (order & Hperm & Hl). exists (added (Label m) order).
    split_and!; [done..|]. intros k v. split.
    + intros Hin. pose proof (added_fresh _ _ _ Hin) as Habs. apply added_from in Hin.
      simpl in *. rewrite Hperm in Hin. apply elem_of_map_to_list in Hin.
      apply lookup_delete_Some in Hin as [Hk Hv]. by split_and!.
    + intros (Hv & Hk & Habs). apply added_complete; [|done]. rewrite Hperm.
      apply elem_of_map_to_list. by apply lookup_delete_Some.
Qed.

End Together.

(** ** The further properties at concrete inputs *)

Lemma first_namespace_label_counts :
  nsValueOf ([podLabel] ++ nsLabel "a" :: [nsLabel "b"]) = Value (nsLabel "a") ∧
  ∀ l2', nsValueOf ([podLabel] ++ nsLabel "a" :: l2')
         = nsValueOf ([podLabel] ++ nsLabel "a" :: [nsLabel "b"]).
Proof.
  apply (nsValueOf_first [podLabel] (nsLabel "a") [nsLabel "b"]).
  - reflexivity.
  - reflexivity.
Defined.

Lemma scenarioA_adds_exactly :
  (∃ o, o ∈ EnrichMetricFamilies lineEncoder plainQuote storeA) ∧
  ∀ o, o ∈ EnrichMetricFamilies lineEncoder plainQuote storeA →
    ∃ mf' m' more, families o.1 !! "container_cpu_usage" = Some mf' ∧
      mfMetric mf' !! 0%nat = Some m' ∧
      Label m' = Label sampleA ++ more ∧
      ∀ k v, {| Name := k; Value := v |} ∈ more ↔
        nsValueOf (Label sampleA) ≠ "" ∧ hasLabel (Label sampleA) k = false ∧
        ∃ extra, Namespaces (nm storeA) !! nsValueOf (Label sampleA) = Some extra ∧
                 extra !! k = Some v.
Proof.
  apply (enrich_adds_exactly lineEncoder plainQuote storeA
           "container_cpu_usage" familyA 0%nat sampleA).
  - reflexivity.
  - reflexivity.
Defined.


Lemma upstream_503_error :
  (∃ e0, noError (RestConfigOf optsA) = Some e0 ∧ "" = "" ∧
         "bad status code: 503, body: container_cpu_usage 1.0" =
           "failed to create transport from rest.Config: " +:+ e0) ∨
  (∃ e0, noError (RestConfigOf optsA) = None ∧ noError (requestURL optsA) = Some e0 ∧
         "" = "" ∧
         "bad status code: 503, body: container_cpu_usage 1.0" = "new request: " +:+ e0) ∨
  (∃ e0, noError (RestConfigOf optsA) = None ∧ noError (requestURL optsA) = None ∧
         upstream 503 (RestConfigOf optsA) false (requestURL optsA) = inr e0 ∧
         "" = "" ∧
         "bad status code: 503, body: container_cpu_usage 1.0" = "do request: " +:+ e0) ∨
  (∃ resp, noError (RestConfigOf optsA) = None ∧ noError (requestURL optsA) = None ∧
         upstream 503 (RestConfigOf optsA) false (requestURL optsA) = inl resp ∧
         StatusCode resp ≠ 200%Z ∧ "" = "" ∧
         "bad status code: 503, body: container_cpu_usage 1.0" =
           "bad status code: " +:+ pretty (StatusCode resp) +:+ ", body: "
             +:+ (ReadAll resp).1) ∨
  (∃ resp, noError (RestConfigOf optsA) = None ∧ noError (requestURL optsA) = None ∧
         upstream 503 (RestConfigOf optsA) false (requestURL optsA) = inl resp ∧
         StatusCode resp = 200%Z ∧
         ReadAll resp = ("", Some "bad status code: 503, body: container_cpu_usage 1.0")).
Proof.
  apply (fetchMetrics_errors noError noError (upstream 503) (RestConfigOf optsA) optsA false).
  vm_compute. reflexivity.
Defined.

Lemma ns1_last_read_wins :
  (∃ o1 o2, o1 ∈ Reconcile tierNamespace cacheNs1 {| NamespacedName := "ns1" |} ∧
            o2 ∈ Reconcile teamNamespace o1.1 {| NamespacedName := "ns1" |}) ∧
  ∀ o1 o2 o, o1 ∈ Reconcile tierNamespace cacheNs1 {| NamespacedName := "ns1" |} →
             o2 ∈ Reconcile teamNamespace o1.1 {| NamespacedName := "ns1" |} →
             o ∈ Reconcile teamNamespace cacheNs1 {| NamespacedName := "ns1" |} → o2 = o.
Proof.
  apply (reconcile_last_read_wins teamNamespace tierNamespace cacheNs1
           {| NamespacedName := "ns1" |} {| NamespacedName := "ns1" |} ns1Tier ns1Team).
  - reflexivity.
  - reflexivity.
  - reflexivity.
  - apply (bool_decide_eq_false_1 (Labels ns1Team = ∅)). vm_compute. reflexivity.
Defined.

Lemma cacheTeam_reachable : reachable cacheTeam.
Proof.
  apply (reachable_reconcile NewNamespaceMetrics teamNamespace {| NamespacedName := "ns1" |}
           (cacheTeam, (emptyResult, None)) reachable_new).
  apply Reconcile_elem_of. vm_compute. reflexivity.
Defined.

Lemma cacheTeam_without_name_label :
  ({[ "team" := "backend" ]} : gmap string string) !! LabelMetadataName = None.
Proof.
  apply (reachable_without_name_label cacheTeam cacheTeam_reachable "ns1").
  reflexivity.
Defined.


Lemma scenarioA_cold_is_transparent :
  (∃ w', w' ∈ Handler lineEncoder plainQuote parserA noError noError (upstream 200)
                  NewNamespaceMetrics optsA newResponseWriter scrape) ∧
  ∀ w', w' ∈ Handler lineEncoder plainQuote parserA noError noError (upstream 200)
               NewNamespaceMetrics optsA newResponseWriter scrape →
    Sent w' = Some (200%Z, {[ "Content-Type" := "text/plain; version=0.0.4" ]}) ∧
    ∃ order, order ≡ₚ map_to_list (families storeA) ∧ Body w' = blocks lineEncoder order.
Proof.
  apply (cold_cache_is_transparent lineEncoder plainQuote parserA noError noError
           (upstream 200) NewNamespaceMetrics optsA scrape "container_cpu_usage 1.0"
           (families storeA)).
  - reflexivity.
  - vm_compute. reflexivity.
  - reflexivity.
  - unfold storeA, families. intros k mf [_ <-]%lookup_singleton_Some. reflexivity.
Defined.

Lemma scenarioA_ignores_ns1 :
  ({| families := families storeA'; nm := cacheA |},
   (renderMetric "container_cpu_usage" sampleA', None))
    ∈ EnrichMetricFamilies lineEncoder plainQuote
        {| families := families storeA; nm := cacheA |} ↔
  ({| families := families storeA';
      nm := {| Namespaces := <["ns1" := {[ "team" := "backend" ]}]> (Namespaces cacheA) |} |},
   (renderMetric "container_cpu_usage" sampleA', None))
    ∈ EnrichMetricFamilies lineEncoder plainQuote
        {| families := families storeA;
           nm := {| Namespaces := <["ns1" := {[ "team" := "backend" ]}]> (Namespaces cacheA) |} |}.
Proof.
  refine (enrich_ignores_other_namespaces lineEncoder plainQuote (families storeA) cacheA
            "ns1" {[ "team" := "backend" ]} _ (families storeA')
            (renderMetric "container_cpu_usage" sampleA', None)).
  unfold storeA, families. intros k mf m [_ <-]%lookup_singleton_Some Hin.
  apply list_elem_of_singleton in Hin. subst m. vm_compute. discriminate.
Defined.

Lemma ns1_reconcile_then_enrich :
  (∃ r o, r ∈ Reconcile teamNamespace cacheNs1 {| NamespacedName := "ns1" |} ∧
          o ∈ EnrichMetricFamilies lineEncoder plainQuote {| families := famsNs1; nm := r.1 |}) ∧
  ∀ r o, r ∈ Reconcile teamNamespace cacheNs1 {| NamespacedName := "ns1" |} →
         o ∈ EnrichMetricFamilies lineEncoder plainQuote {| families := famsNs1; nm := r.1 |} →
    ∃ mf' m' more, families o.1 !! "container_cpu_usage" = Some mf' ∧
      mfMetric mf' !! 0%nat = Some m' ∧
      Label m' = Label sampleNs1 ++ more ∧
      ∀ k v, {| Name := k; Value := v |} ∈ more ↔
        Labels ns1Team !! k = Some v ∧ k ≠ LabelMetadataName ∧
        hasLabel (Label sampleNs1) k = false.
Proof.
  apply (reconcile_then_enrich lineEncoder plainQuote teamNamespace cacheNs1
           {| NamespacedName := "ns1" |} ns1Team famsNs1 "container_cpu_usage"
           familyNs1 0%nat sampleNs1).
  - reflexivity.
  - apply (bool_decide_eq_false_1 (Labels ns1Team = ∅)). vm_compute. reflexivity.
  - reflexivity.
  - reflexivity.
  - reflexivity.
  - vm_compute. discriminate.
Defined.
